(** * link_generator.py: navigation links between documentation pages

    A shallow embedding of [.lefthook/pre-commit/link_generator.py] and the
    properties of its four functions:
    [extract_doc_links_from_readme], [get_relative_link],
    [add_navigation_links] and [process_documentation_files].

    Python's [str] is a sequence of Unicode code points; it is modelled as
    [list N].  The parts of the Python runtime the script calls ([re],
    [pathlib], [str.title], [str.strip], text-mode file access) are modelled
    next to the script's own functions, each under the name it has in
    Python. *)

From Stdlib Require Import NArith Ascii String.
From stdpp Require Import gmap list.

Local Open Scope list_scope.

(** ** Text *)

Definition char : Type := N.
Definition str : Type := list char.

(** A literal of the source, written in ASCII. *)
Definition txt (s : string) : str :=
  List.map N_of_ascii (list_ascii_of_string s).

Definition LF : char := 10%N.          (* "\n" *)
Definition LARR : char := 8592%N.      (* U+2190 LEFTWARDS ARROW *)
Definition RARR : char := 8594%N.      (* U+2192 RIGHTWARDS ARROW *)
Definition SLASH : char := 47%N.       (* "/" *)
Definition DOT : char := 46%N.         (* "." *)
Definition UNDERSCORE : char := 95%N.  (* "_" *)
Definition SPACE : char := 32%N.       (* " " *)

(** [s[len(p):]] when [s.startswith(p)]: how a literal piece of a pattern
    consumes input. *)
Fixpoint lit (p s : str) : option str :=
  match p with
  | [] => Some s
  | a :: p' =>
      match s with
      | [] => None
      | b :: s' => if N.eqb a b then lit p' s' else None
      end
  end.

Definition startswith (p s : str) : bool :=
  match lit p s with Some _ => true | None => false end.

(** [needle in hay] *)
Fixpoint contains (needle hay : str) : bool :=
  startswith needle hay ||
  match hay with
  | [] => false
  | _ :: t => contains needle t
  end.

(** [sep.join(pieces)] *)
Fixpoint join (sep : str) (pieces : list str) : str :=
  match pieces with
  | [] => []
  | [x] => x
  | x :: rest => x ++ sep ++ join sep rest
  end.

(** ** The [re] module, as far as the script's patterns go

    The patterns are made of literal text and the lazy [.*?].  Python's
    matcher is a backtracking one: [.*?] first tries to consume nothing and
    hands over to the rest of the pattern (the continuation [k]); only when
    the rest fails does it consume one more character, which [.] takes
    unless it is a newline. *)
Fixpoint lazy_dots {A : Type} (k : str -> option A) (s : str)
  : option (str * A) :=
  match k s with
  | Some a => Some ([], a)
  | None =>
      match s with
      | [] => None
      | c :: s' =>
          if N.eqb c LF then None
          else match lazy_dots k s' with
               | Some (skipped, a) => Some (c :: skipped, a)
               | None => None
               end
      end
  end.

(** What a left-to-right scan of the subject yields: the matches, and the
    characters between them. *)
Inductive piece (A : Type) : Type :=
| Hit (a : A)
| Gap (c : char).
Arguments Hit {A} a.
Arguments Gap {A} c.

(** The scan shared by [re.findall] and [re.sub]: try the pattern at the
    current position; after a match go on behind it, otherwise move one
    character to the right.  [m] returns what the match yields and the
    text behind the match.  The patterns here never match the empty string,
    so every step consumes a character and the fuel [S (length s)] given by
    [scan] is never used up ([scan_eq]). *)
Fixpoint scan_fuel {A : Type} (m : str -> option (A * str)) (fuel : nat)
    (s : str) : list (piece A) :=
  match fuel with
  | O => []
  | S fuel' =>
      match m s with
      | Some (a, rest) => Hit a :: scan_fuel m fuel' rest
      | None =>
          match s with
          | [] => []
          | c :: s' => Gap c :: scan_fuel m fuel' s'
          end
      end
  end.

Definition scan {A : Type} (m : str -> option (A * str)) (s : str)
  : list (piece A) :=
  scan_fuel m (S (length s)) s.

(** [re.findall(pattern, s)] for a pattern with one group. *)
Definition re_findall (m : str -> option (str * str)) (s : str) : list str :=
  omap (fun p => match p with Hit g => Some g | Gap _ => None end) (scan m s).

(** [re.sub(pattern, repl, s)] for a replacement text without group
    references. *)
Definition re_sub {A : Type} (m : str -> option (A * str)) (repl s : str)
  : str :=
  concat (List.map (fun p => match p with Hit _ => repl | Gap c => [c] end)
                   (scan m s)).

(** ** [extract_doc_links_from_readme] *)

(** The pattern [r"\[.*?\]\((docs/.*?\.md)\)"], tried at the start of [s]:
    the text of group 1 and the text behind the match. *)
Definition doc_link_pattern (s : str) : option (str * str) :=
  s1 ← lit (txt "[") s;
  '(_, found) ← lazy_dots (fun t =>
      t1 ← lit (txt "](") t;
      t2 ← lit (txt "docs/") t1;
      '(inner, rest) ← lazy_dots (lit (txt ".md)")) t2;
      Some (txt "docs/" ++ inner ++ txt ".md", rest)) s1;
  Some found.

(** [list(dict.fromkeys(keys))]: a dict keeps its keys in insertion order,
    and setting a key that is already there does not move it. *)
Definition dict_fromkeys (keys : list str) : list str :=
  fold_left (fun d k => if bool_decide (k ∈ d) then d else d ++ [k]) keys [].

Definition extract_doc_links_from_readme (readme_content : str) : list str :=
  let doc_links := re_findall doc_link_pattern readme_content in
  dict_fromkeys doc_links.

(** ** [pathlib], POSIX flavour *)

(** [s.split(sep)] for a one-character separator. *)
Fixpoint split (sep : char) (s : str) : list str :=
  match s with
  | [] => [[]]
  | c :: s' =>
      if N.eqb c sep then [] :: split sep s'
      else match split sep s' with
           | w :: ws => (c :: w) :: ws
           | [] => [[c]]
           end
  end.

(** [s.rfind(c)], [None] standing for -1. *)
Fixpoint rfind (c : char) (s : str) : option nat :=
  match s with
  | [] => None
  | a :: s' =>
      match rfind c s' with
      | Some i => Some (S i)
      | None => if N.eqb a c then Some 0 else None
      end
  end.

(** A parsed path: root and the components after it (the drive is always
    empty on POSIX). *)
Record PurePath : Type := { root : str; tail : list str }.

(** [posixpath.splitroot] *)
Definition splitroot (p : str) : str * str :=
  match p with
  | c1 :: r1 =>
      if N.eqb c1 SLASH then
        match r1 with
        | c2 :: r2 =>
            if N.eqb c2 SLASH then
              match r2 with
              | c3 :: _ => if N.eqb c3 SLASH then ([SLASH], r1)
                           else ([SLASH; SLASH], r2)
              | [] => ([SLASH; SLASH], r2)
              end
            else ([SLASH], r1)
        | [] => ([SLASH], r1)
        end
      else ([], p)
  | [] => ([], p)
  end.

(** [x and x != '.']: the components [Path] keeps. *)
Definition proper_component (x : str) : bool :=
  negb (bool_decide (x = [])) && negb (bool_decide (x = [DOT])).

(** [Path(p)]: split at "/", dropping empty components and ".". *)
Definition Path (p : str) : PurePath :=
  let '(rt, rel) := splitroot p in
  {| root := rt;
     tail := List.filter proper_component (split SLASH rel) |}.

(** [path.name] *)
Definition name (path : PurePath) : str := List.last (tail path) [].

(** [path.stem]: the name without its suffix; a dot that starts or ends the
    name does not begin a suffix (pathlib up to Python 3.13). *)
Definition stem (path : PurePath) : str :=
  let nm := name path in
  match rfind DOT nm with
  | Some i => if (0 <? i) && (i <? length nm - 1) then take i nm else nm
  | None => nm
  end.

(** [str(path)] *)
Definition path_str (path : PurePath) : str :=
  match root path ++ join [SLASH] (tail path) with
  | [] => [DOT]
  | s => s
  end.

(** [path.parent] *)
Definition parent (path : PurePath) : PurePath :=
  match tail path with
  | [] => path
  | _ => {| root := root path; tail := removelast (tail path) |}
  end.

(** [posixpath.join(a, b)]: [b] alone when it starts with "/", [a + b] when
    [a] is empty or ends with "/", else [a + "/" + b]. *)
Definition posix_join (a b : str) : str :=
  if startswith [SLASH] b then b
  else if bool_decide (a = []) || N.eqb (List.last a 0%N) SLASH then a ++ b
  else a ++ [SLASH] ++ b.

(** [path / key]: the texts of the two are joined and parsed again. *)
Definition joinpath (path : PurePath) (key : str) : PurePath :=
  Path (posix_join (root path ++ join [SLASH] (tail path)) key).

(** ** [get_relative_link] *)

Definition get_relative_link (file_path : str) : str :=
  name (Path file_path).

(** ** [str.strip], [str.replace], [str.title] *)

Local Open Scope N_scope.

(** [Py_UNICODE_ISSPACE]: the characters [str.strip()] removes. *)
Definition is_whitespace (c : char) : bool :=
  ((9 <=? c) && (c <=? 13)) || ((28 <=? c) && (c <=? 32)) ||
  (c =? 133) || (c =? 160) || (c =? 5760) ||
  ((8192 <=? c) && (c <=? 8202)) || (c =? 8232) || (c =? 8233) ||
  (c =? 8239) || (c =? 8287) || (c =? 12288).

Definition ascii_is_alpha (c : char) : bool :=
  ((65 <=? c) && (c <=? 90)) || ((97 <=? c) && (c <=? 122)).
Definition ascii_upper (c : char) : char :=
  if (97 <=? c) && (c <=? 122) then c - 32 else c.
Definition ascii_lower (c : char) : char :=
  if (65 <=? c) && (c <=? 90) then c + 32 else c.

Local Close Scope N_scope.

(** [s.lstrip()] and [s.rstrip()] *)
Fixpoint lstrip (s : str) : str :=
  match s with
  | c :: s' => if is_whitespace c then lstrip s' else s
  | [] => []
  end.
Definition rstrip (s : str) : str := rev (lstrip (rev s)).

(** [s.strip()] *)
Definition strip (s : str) : str := rstrip (lstrip s).

(** [s.replace(a, b)] for one-character [a] and [b]. *)
Definition replace (a b : char) (s : str) : str :=
  List.map (fun c => if N.eqb c a then b else c) s.

(** The rows of the Unicode character database that [str.title] reads.
    The table belongs to the interpreter, so it is a parameter here; what
    is fixed are its rows for ASCII (only the letters are cased, and they
    map to one another) and that no case mapping produces a newline. *)
Class UnicodeData : Type := {
  is_cased : char -> bool;
  is_case_ignorable : char -> bool;
  to_title_full : char -> str;
  to_lower_full : char -> str;
  ascii_cased : forall c, (c < 128)%N -> is_cased c = ascii_is_alpha c;
  ascii_title : forall c, (c < 128)%N -> to_title_full c = [ascii_upper c];
  ascii_lower_row : forall c, (c < 128)%N -> to_lower_full c = [ascii_lower c];
  title_row_no_LF : forall c, c <> LF -> LF ∉ to_title_full c;
  lower_row_no_LF : forall c, c <> LF -> LF ∉ to_lower_full c
}.

Section Title.
Context {ucd : UnicodeData}.

Definition SIGMA : char := 931%N.        (* U+03A3 *)
Definition FINAL_SIGMA : char := 962%N.  (* U+03C2 *)
Definition SMALL_SIGMA : char := 963%N.  (* U+03C3 *)

(** [handle_capital_sigma]: [before] is the text to the left of the
    sigma, nearest character first, [after] the text to its right. *)
Definition handle_capital_sigma (before after : str) : char :=
  let significant := List.find (fun c => negb (is_case_ignorable c)) in
  let final_sigma :=
    match significant before with
    | Some c => is_cased c
    | None => false
    end &&
    match significant after with
    | Some c => negb (is_cased c)
    | None => true
    end in
  if final_sigma then FINAL_SIGMA else SMALL_SIGMA.

Definition lower_ucs4 (before : str) (c : char) (after : str) : str :=
  if N.eqb c SIGMA then [handle_capital_sigma before after]
  else to_lower_full c.

(** [do_title]: a character after a cased one is lowercased, any other is
    titlecased. *)
Fixpoint do_title (before : str) (previous_is_cased : bool) (s : str)
  : str :=
  match s with
  | [] => []
  | c :: after =>
      (if previous_is_cased then lower_ucs4 before c after
       else to_title_full c)
      ++ do_title (c :: before) (is_cased c) after
  end.

(** [s.title()] *)
Definition title (s : str) : str := do_title [] false s.

(** ** [add_navigation_links] *)

Definition PREVIOUS_MARK : str := LARR :: txt " Previous:".
Definition NEXT_MARK : str := txt "Next:".

(** [r"\[← Previous:.*?\n"] and [r"\[Next:.*?\n"], tried at the start of
    [s]: the text behind the match. *)
Definition nav_line_pattern (mark s : str) : option (unit * str) :=
  s1 ← lit (txt "[" ++ mark) s;
  '(_, rest) ← lazy_dots (lit [LF]) s1;
  Some (tt, rest).

(** [Path(f).stem.replace("_", " ").title()] *)
Definition nav_name (file : str) : str :=
  title (replace UNDERSCORE SPACE (stem (Path file))).

(** [f"[← Previous: {prev_name}]({prev_link})"] *)
Definition prev_entry (prev_file : str) : str :=
  txt "[" ++ [LARR] ++ txt " Previous: " ++ nav_name prev_file ++
  txt "](" ++ get_relative_link prev_file ++ txt ")".

(** [f"[Next: {next_name} →]({next_link})"] *)
Definition next_entry (next_file : str) : str :=
  txt "[Next: " ++ nav_name next_file ++ txt " " ++ [RARR] ++
  txt "](" ++ get_relative_link next_file ++ txt ")".

(** The list [navigation] after the two [if]s; [None] and the empty
    string are both false for Python's [if]. *)
Definition navigation (prev_file next_file : option str) : list str :=
  match prev_file with
  | Some ((_ :: _) as f) => [prev_entry f]
  | _ => []
  end ++
  match next_file with
  | Some ((_ :: _) as f) => [next_entry f]
  | _ => []
  end.

Definition add_navigation_links (content : str)
    (prev_file next_file : option str) : str :=
  match navigation prev_file next_file with
  | [] => content
  | nav =>
      let nav_text := join (txt " | ") nav in
      let content :=
        if contains PREVIOUS_MARK content || contains NEXT_MARK content
        then
          let content := re_sub (nav_line_pattern PREVIOUS_MARK) [] content in
          re_sub (nav_line_pattern NEXT_MARK) [] content
        else content in
      let nav_block := [LF] ++ nav_text ++ [LF] in
      nav_block ++ [LF] ++ strip content ++ [LF] ++ nav_block ++ [LF]
  end.
End Title.

(** ** Files and the console

    The operating system resolves the text of a path to the file it names,
    following ".", ".." and links: [realpath] gives the name under which
    that file is kept in [files], so two texts name one file exactly when
    their [realpath]s agree.  The script creates and removes no name, so
    the resolution is a fixed part of the world.  A name can also be one
    that the system fails to look up with an error other than "no such
    file" (a name that is too long, a directory that may not be searched):
    [Unreachable].  What [print] writes is collected in [stdout]. *)
Inductive node : Type :=
| File (data : str)
| Directory
| Unreachable.

Record world : Type :=
  { realpath : str -> str; files : gmap str node; stdout : str }.

Inductive exn : Type :=
| FileNotFoundError (p : str)
| IsADirectoryError (p : str)
| OSError (p : str).

Inductive outcome (A : Type) : Type :=
| Returned (a : A)
| Raised (e : exn).
Arguments Returned {A} a.
Arguments Raised {A} e.

(** A statement of the script: it changes the world and returns or raises. *)
Definition io (A : Type) : Type := world -> outcome A * world.

#[export] Instance io_ret : MRet io := fun A a w => (Returned a, w).
#[export] Instance io_bind : MBind io := fun A B k m w =>
  match m w with
  | (Returned a, w') => k a w'
  | (Raised e, w') => (Raised e, w')
  end.

(** Reading in text mode translates "\r\n" and "\r" to "\n". *)
Fixpoint universal_newlines (data : str) : str :=
  match data with
  | [] => []
  | c :: rest =>
      if N.eqb c 13 then
        LF :: match rest with
              | d :: rest' => if N.eqb d LF then universal_newlines rest'
                              else universal_newlines rest
              | [] => []
              end
      else c :: universal_newlines rest
  end.

(** [os.stat(path)]: what the text of the path leads to. *)
Definition stat (path : PurePath) (w : world) : option node :=
  files w !! realpath w (path_str path).

(** [path.exists()] (pathlib up to Python 3.12): false for a file that is
    reported missing, while another error of the lookup is raised. *)
Definition path_exists (path : PurePath) : io bool := fun w =>
  match stat path w with
  | Some Unreachable => (Raised (OSError (path_str path)), w)
  | Some _ => (Returned true, w)
  | None => (Returned false, w)
  end.

(** [path.read_text()] *)
Definition read_text (path : PurePath) : io str := fun w =>
  match stat path w with
  | Some (File data) => (Returned (universal_newlines data), w)
  | Some Directory => (Raised (IsADirectoryError (path_str path)), w)
  | Some Unreachable => (Raised (OSError (path_str path)), w)
  | None => (Raised (FileNotFoundError (path_str path)), w)
  end.

(** [path.write_text(data)]: the file that the path names gets the data,
    under whatever other texts it is known; on POSIX "\n" is written as
    it is. *)
Definition write_text (path : PurePath) (data : str) : io unit := fun w =>
  match stat path w with
  | Some Directory => (Raised (IsADirectoryError (path_str path)), w)
  | Some Unreachable => (Raised (OSError (path_str path)), w)
  | _ => (Returned tt,
          {| realpath := realpath w;
             files := <[realpath w (path_str path) := File data]> (files w);
             stdout := stdout w |})
  end.

(** [print(line)] *)
Definition print (line : str) : io unit := fun w =>
  (Returned tt,
   {| realpath := realpath w; files := files w;
      stdout := stdout w ++ line ++ [LF] |}).

(** [for x in l: body(x)] *)
Fixpoint for_each {A : Type} (body : A -> io unit) (l : list A) : io unit :=
  match l with
  | [] => mret tt
  | x :: rest => body x;; for_each body rest
  end.

(** [enumerate(l)] *)
Definition enumerate {A : Type} (l : list A) : list (nat * A) :=
  imap (fun i x => (i, x)) l.

(** ** [process_documentation_files] *)

Section Process.
Context {ucd : UnicodeData}.

(** [doc_files[i - 1] if i > 0 else None]; the index is in range whenever
    the loop evaluates it. *)
Definition prev_of (doc_files : list str) (i : nat) : option str :=
  if 0 <? i then doc_files !! (i - 1) else None.

(** [doc_files[i + 1] if i < len(doc_files) - 1 else None] *)
Definition next_of (doc_files : list str) (i : nat) : option str :=
  if i <? length doc_files - 1 then doc_files !! (i + 1) else None.

(** The body of the loop. *)
Definition process_file (readme_path : PurePath) (doc_files : list str)
    (i : nat) (current_file : str) : io unit :=
  let current_path := joinpath (parent readme_path) current_file in
  found ← path_exists current_path;
  if negb found then
    print (txt "Warning: " ++ current_file ++ txt " not found")
  else
    let prev_file := prev_of doc_files i in
    let next_file := next_of doc_files i in
    content ← read_text current_path;
    let updated_content := add_navigation_links content prev_file next_file in
    write_text current_path updated_content;;
    print (txt "Updated " ++ current_file).

Definition process_documentation_files (readme_path : PurePath) : io unit :=
  readme_content ← read_text readme_path;
  let doc_files := extract_doc_links_from_readme readme_content in
  for_each (fun '(i, current_file) =>
              process_file readme_path doc_files i current_file)
           (enumerate doc_files).
End Process.

(** The [__main__] block: the README of the working directory. *)
Definition main {ucd : UnicodeData} : io unit :=
  process_documentation_files (Path (txt "README.md")).

(** * The vocabulary of the properties *)

(** The case-ignorable characters of ASCII: ' . : ^ ` *)
Definition basic_latin_ignorable (c : char) : bool :=
  (c =? 39)%N || (c =? 46)%N || (c =? 58)%N || (c =? 94)%N || (c =? 96)%N.

(** A pattern that never matches the empty string: what is left behind a
    match is a proper end of the subject. *)
Definition consuming {A} (m : str -> option (A * str)) : Prop :=
  forall s a rest, m s = Some (a, rest) ->
    exists c matched, s = c :: matched ++ rest.

(** The text of a markdown link to [target]. *)
Definition markdown_link (label target : str) : str :=
  txt "[" ++ label ++ txt "](" ++ target ++ txt ")".

(** A target in the documentation folder: "docs/", anything on one line,
    ".md". *)
Definition doc_target (inner : str) : str := txt "docs/" ++ inner ++ txt ".md".

(** Places in a text, from left to right. *)
Definition increasing (places : list nat) : Prop :=
  forall i j a b, places !! i = Some a -> places !! j = Some b -> i < j -> a < b.

(** [l.index(x)], [None] where Python raises [ValueError]: the place of the
    first occurrence. *)
Fixpoint index (x : str) (l : list str) : option nat :=
  match l with
  | [] => None
  | y :: l' => if bool_decide (y = x) then Some 0 else S <$> index x l'
  end.

(** A text that can stand in front of a file name: nothing, or a
    directory part ending in "/". *)
Definition dir_prefix (d : str) : Prop := d = [] \/ exists d', d = d' ++ [SLASH].

(** [s.isascii()] *)
Definition isascii (s : str) : bool := forallb (fun c => c <? 128)%N s.

(** Title case word by word, for ASCII text: a character that follows a
    letter is put in lower case, any other in upper case, so that every
    run of letters begins with a capital and goes on in small letters. *)
Fixpoint capitalize_words (after_letter : bool) (s : str) : str :=
  match s with
  | [] => []
  | c :: rest =>
      (if after_letter then ascii_lower c else ascii_upper c)
      :: capitalize_words (ascii_is_alpha c) rest
  end.

(** The text in [line] before the first occurrence of [needle]. *)
Fixpoint before_first (needle line : str) : option str :=
  if startswith needle line then Some []
  else match line with
       | [] => None
       | c :: line' => cons c <$> before_first needle line'
       end.

(** What one pass of [re.sub] leaves of a line that ends in a newline:
    the text before the first mark, or, without a mark, the line and its
    newline. *)
Definition kept_of_line (mark line : str) : str :=
  match before_first (txt "[" ++ mark) line with
  | Some pre => pre
  | None => line ++ [LF]
  end.

(** Text made of whitespace only. *)
Definition all_whitespace (s : str) : bool := forallb is_whitespace s.

(** Text that [strip] leaves as it is. *)
Definition trimmed (s : str) : Prop := lstrip s = s /\ rstrip s = s.

(** An argument that Python's [if] takes as false. *)
Definition absent (o : option str) : Prop := o = None \/ o = Some [].
Definition present (o : option str) : Prop := exists f, o = Some f /\ f <> [].

(** The content after the two substitutions. *)
Definition without_nav_lines (content : str) : str :=
  re_sub (nav_line_pattern NEXT_MARK) []
         (re_sub (nav_line_pattern PREVIOUS_MARK) [] content).

(** The result: a blank line, the navigation line, a blank line, the
    body, a blank line, the navigation line, a blank line. *)
Definition framed (nav_text body : str) : str :=
  [LF] ++ nav_text ++ [LF] ++ [LF] ++ body ++ [LF] ++
  [LF] ++ nav_text ++ [LF] ++ [LF].




(** A neighbour path without a newline. *)
Definition one_line (o : option str) : Prop := forall f, o = Some f -> LF ∉ f.

(** The path text under which the loop looks for an entry of the list, *)
Definition target (readme_path : PurePath) (current_file : str) : str :=
  path_str (joinpath (parent readme_path) current_file).

(** and the file that this text names. *)
Definition file_of (w : world) (readme_path : PurePath) (current_file : str)
  : str :=
  realpath w (target readme_path current_file).

(** The line the loop prints for an entry. *)
Definition report (w : world) (readme_path : PurePath) (current_file : str)
  : str :=
  if bool_decide (is_Some (files w !! file_of w readme_path current_file))
  then txt "Updated " ++ current_file
  else txt "Warning: " ++ current_file ++ txt " not found".

(** What the loop can deal with: a file, or none. *)
Definition file_or_missing (o : option node) : Prop :=
  match o with
  | None | Some (File _) => True
  | Some Directory | Some Unreachable => False
  end.

(** Two worlds with the same names, and with the same files missing, the
    same directories and the same unreachable names. *)
Definition same_nodes (w1 w2 : world) : Prop :=
  realpath w1 = realpath w2 /\
  forall p,
    (files w1 !! p = None <-> files w2 !! p = None) /\
    (files w1 !! p = Some Directory <-> files w2 !! p = Some Directory) /\
    (files w1 !! p = Some Unreachable <-> files w2 !! p = Some Unreachable).

(** A file system without links, for path texts in normal form: every text
    names its own file. *)
Definition plain_names (p : str) : str := p.

(** A README with three links, and a file system in which the file of the
    second link is missing. *)
Definition example_readme : str :=
  txt "[A](docs/a.md) [M](docs/missing.md) [B](docs/b.md)".

Definition example_world : world :=
  {| realpath := plain_names;
     files := <[txt "README.md" := File example_readme]>
              (<[txt "docs/a.md" := File (txt "alpha")]>
               (<[txt "docs/b.md" := File (txt "beta")]> ∅));
     stdout := [] |}.

(** Worlds for the runs of the orchestrator: no file at all, a README
    without links, one page with a Windows line end, a link that leads to
    a directory, and two links that lead to one file. *)
Definition example_blank_world : world :=
  {| realpath := plain_names; files := ∅; stdout := [] |}.

Definition example_plain_world : world :=
  {| realpath := plain_names;
     files := <[txt "README.md" := File (txt "No links here.")]> ∅;
     stdout := [] |}.

Definition example_single_world : world :=
  {| realpath := plain_names;
     files := <[txt "README.md" := File (txt "[A](docs/a.md)")]>
              (<[txt "docs/a.md" := File (txt "x" ++ [13%N; LF] ++ txt "y")]> ∅);
     stdout := [] |}.

Definition example_directory_world : world :=
  {| realpath := plain_names;
     files := <[txt "README.md" :=
                  File (txt "[A](docs/a.md) [D](docs/d.md) [B](docs/b.md)")]>
              (<[txt "docs/a.md" := File (txt "alpha")]>
               (<[txt "docs/d.md" := Directory]>
                (<[txt "docs/b.md" := File (txt "beta")]> ∅)));
     stdout := [] |}.

Definition example_alias_world : world :=
  {| realpath := fun p =>
       if bool_decide (p = txt "docs/../docs/a.md") then txt "docs/a.md"
       else p;
     files := <[txt "README.md" :=
                  File (txt "[A](docs/a.md) [A again](docs/../docs/a.md)")]>
              (<[txt "docs/a.md" := File (txt "alpha")]> ∅);
     stdout := [] |}.

(** * Properties *)

#[local] Arguments N.eqb : simpl nomatch.
#[local] Arguments N.leb : simpl nomatch.
#[local] Arguments txt : simpl never.

(** Spell out the characters of the literals in the goal. *)
Ltac spell :=
  repeat match goal with
         | |- context [txt ?s] =>
             let t := eval vm_compute in (txt s) in change (txt s) with t
         end.

(** ** The Basic Latin table *)

Lemma ascii_upper_not_LF c : c <> LF -> LF ∉ [ascii_upper c].
Proof.
  intros Hc Hin. apply list_elem_of_singleton in Hin.
  unfold ascii_upper, LF in *.
  destruct (_ && _) eqn:E; [|congruence].
  apply andb_true_iff in E as [E1 E2].
  apply N.leb_le in E1. lia.
Qed.

Lemma ascii_lower_not_LF c : c <> LF -> LF ∉ [ascii_lower c].
Proof.
  intros Hc Hin. apply list_elem_of_singleton in Hin.
  unfold ascii_lower, LF in *.
  destruct (_ && _) eqn:E; [|congruence].
  apply andb_true_iff in E as [E1 E2].
  apply N.leb_le in E1. lia.
Qed.

(** The table cut down to Basic Latin: every character outside ASCII is
    taken as uncased and maps to itself.  It agrees with the interpreter's
    table on all text made of ASCII characters and of characters without
    case, such as the two arrows. *)
#[export] Instance basic_latin : UnicodeData := {|
  is_cased := ascii_is_alpha;
  is_case_ignorable := basic_latin_ignorable;
  to_title_full c := [ascii_upper c];
  to_lower_full c := [ascii_lower c];
  ascii_cased c _ := eq_refl;
  ascii_title c _ := eq_refl;
  ascii_lower_row c _ := eq_refl;
  title_row_no_LF := ascii_upper_not_LF;
  lower_row_no_LF := ascii_lower_not_LF
|}.

(** ** Literals and substrings *)

Lemma lit_Some p s r : lit p s = Some r <-> s = p ++ r.
Proof.
  revert s. induction p as [|a p IH]; intros s; simpl.
  - split; [intros [= ->] | intros ->]; reflexivity.
  - destruct s as [|b s]; [split; [discriminate | intros [=]] |].
    destruct (N.eqb_spec a b) as [->|Hne].
    + rewrite IH. split; [intros -> | intros [= ->]]; reflexivity.
    + split; [discriminate | intros [= ? ?]; congruence].
Qed.

Lemma lit_app p r : lit p (p ++ r) = Some r.
Proof. apply lit_Some. reflexivity. Qed.

Lemma lit_length p s r : lit p s = Some r -> length s = length p + length r.
Proof. intros ->%lit_Some. apply length_app. Qed.

Lemma startswith_true p s : startswith p s = true <-> exists r, s = p ++ r.
Proof.
  unfold startswith. destruct (lit p s) as [r|] eqn:E.
  - apply lit_Some in E. split; eauto.
  - split; [discriminate|]. intros [r ->]. rewrite lit_app in E. discriminate.
Qed.

Lemma contains_true needle hay :
  contains needle hay = true <-> exists a b, hay = a ++ needle ++ b.
Proof.
  induction hay as [|c hay IH]; simpl.
  - rewrite orb_false_r, startswith_true. split.
    + intros [r Hr]. exists [], r. exact Hr.
    + intros (a & b & Hab). destruct a; [eauto|discriminate].
  - rewrite orb_true_iff, startswith_true, IH. split.
    + intros [[r Hr]|(a & b & ->)].
      * exists [], r. exact Hr.
      * exists (c :: a), b. reflexivity.
    + intros (a & b & Hab). destruct a as [|c' a]; simpl in Hab.
      * left. eauto.
      * right. injection Hab as _ ->. eauto.
Qed.

Lemma contains_false needle hay :
  contains needle hay = false <-> forall a b, hay <> a ++ needle ++ b.
Proof.
  rewrite <- not_true_iff_false, contains_true. split.
  - intros Hn a b Hab. apply Hn. eauto.
  - intros Hn (a & b & Hab). exact (Hn a b Hab).
Qed.

(** ** The lazy [.*?] *)

Lemma lazy_dots_sound {A} (k : str -> option A) s skipped a :
  lazy_dots k s = Some (skipped, a) ->
  (LF ∉ skipped) /\ exists r, s = skipped ++ r /\ k r = Some a.
Proof.
  revert skipped. induction s as [|c s IH]; intros skipped; simpl.
  - destruct (k []) eqn:E; [|discriminate]. intros [= <- <-].
    split; [apply not_elem_of_nil|]. exists []. auto.
  - destruct (k (c :: s)) eqn:E.
    + intros [= <- <-]. split; [apply not_elem_of_nil|]. eauto.
    + destruct (N.eqb_spec c LF) as [->|Hc]; [discriminate|].
      destruct (lazy_dots k s) as [[sk a']|] eqn:E'; [|discriminate].
      intros [= <- <-]. destruct (IH sk eq_refl) as (Hsk & r & -> & Hr).
      split.
      * intros [Heq|Hin]%elem_of_cons; [congruence|]. exact (Hsk Hin).
      * exists r. auto.
Qed.

(** [.*?] stops at the first place where the rest of the pattern matches. *)
Lemma lazy_dots_first {A} (k : str -> option A) skipped r a :
  LF ∉ skipped ->
  (forall i, i < length skipped -> k (drop i skipped ++ r) = None) ->
  k r = Some a ->
  lazy_dots k (skipped ++ r) = Some (skipped, a).
Proof.
  induction skipped as [|c sk IH]; intros Hnl Hfail Hr.
  - simpl. destruct r; simpl; rewrite Hr; reflexivity.
  - pose proof (Hfail 0 ltac:(simpl; lia)) as H0. simpl in H0 |- *.
    rewrite H0. apply not_elem_of_cons in Hnl as [Hc Hnl].
    destruct (N.eqb_spec c LF) as [->|_]; [contradiction|].
    rewrite IH; auto.
    intros i Hi. apply (Hfail (S i)). simpl. lia.
Qed.

(** Where some way of skipping lets the rest match, [.*?] finds a match. *)
Lemma lazy_dots_complete {A} (k : str -> option A) skipped r :
  LF ∉ skipped -> is_Some (k r) -> is_Some (lazy_dots k (skipped ++ r)).
Proof.
  induction skipped as [|c sk IH]; intros Hnl Hr.
  - destruct Hr as [a Ha]. exists ([], a).
    simpl. destruct r; simpl; rewrite Ha; reflexivity.
  - apply not_elem_of_cons in Hnl as [Hc Hnl]. simpl.
    destruct (k (c :: sk ++ r)); [eauto|].
    destruct (N.eqb_spec c LF) as [->|_]; [contradiction|].
    destruct (IH Hnl Hr) as [[sk' a] ->]. eauto.
Qed.

Lemma lazy_dots_none_tail {A} (k : str -> option A) c s :
  lazy_dots k (c :: s) = None -> c <> LF -> lazy_dots k s = None.
Proof.
  simpl. destruct (k (c :: s)); [discriminate|].
  destruct (N.eqb_spec c LF); [contradiction|].
  destruct (lazy_dots k s) as [[? ?]|]; [discriminate|reflexivity].
Qed.

(** ** The scan *)

Lemma consuming_length {A} (m : str -> option (A * str)) s a rest :
  consuming m -> m s = Some (a, rest) -> length rest < length s.
Proof.
  intros Hm (c & matched & ->)%Hm. simpl. rewrite length_app. lia.
Qed.

Lemma scan_fuel_irrelevant {A} (m : str -> option (A * str)) :
  consuming m ->
  forall fuel fuel' s, length s < fuel -> length s < fuel' ->
    scan_fuel m fuel s = scan_fuel m fuel' s.
Proof.
  intros Hm. induction fuel as [|fuel IH]; intros fuel' s Hf Hf'; [lia|].
  destruct fuel' as [|fuel']; [lia|]. simpl.
  destruct (m s) as [[a rest]|] eqn:E.
  - apply (consuming_length _ _ _ _ Hm) in E. f_equal. apply IH; lia.
  - destruct s as [|c s]; [reflexivity|]. simpl in *.
    f_equal. apply IH; lia.
Qed.

(** The fuel is never used up: the scan obeys the equation of the loop. *)
Lemma scan_eq {A} (m : str -> option (A * str)) s :
  consuming m ->
  scan m s =
  match m s with
  | Some (a, rest) => Hit a :: scan m rest
  | None => match s with [] => [] | c :: s' => Gap c :: scan m s' end
  end.
Proof.
  intros Hm. unfold scan at 1. simpl.
  destruct (m s) as [[a rest]|] eqn:E.
  - f_equal. apply scan_fuel_irrelevant; auto.
    apply (consuming_length _ _ _ _ Hm) in E. lia.
  - destruct s as [|c s]; reflexivity.
Qed.

Lemma re_findall_eq m s :
  consuming m ->
  re_findall m s =
  match m s with
  | Some (g, rest) => g :: re_findall m rest
  | None => match s with [] => [] | _ :: s' => re_findall m s' end
  end.
Proof.
  intros Hm. unfold re_findall. rewrite scan_eq by assumption.
  destruct (m s) as [[g rest]|]; [reflexivity|].
  destruct s; reflexivity.
Qed.

Lemma re_sub_eq {A} (m : str -> option (A * str)) repl s :
  consuming m ->
  re_sub m repl s =
  match m s with
  | Some (_, rest) => repl ++ re_sub m repl rest
  | None => match s with [] => [] | c :: s' => c :: re_sub m repl s' end
  end.
Proof.
  intros Hm. unfold re_sub. rewrite scan_eq by assumption.
  destruct (m s) as [[g rest]|]; [reflexivity|].
  destruct s; reflexivity.
Qed.

(** ** The pattern of a documentation link *)

Lemma doc_link_pattern_sound s g rest :
  doc_link_pattern s = Some (g, rest) ->
  exists label inner,
    s = markdown_link label (doc_target inner) ++ rest /\
    g = doc_target inner /\ (LF ∉ label) /\ (LF ∉ inner).
Proof.
  unfold doc_link_pattern. intros Hm.
  destruct (lit (txt "[") s) as [s1|] eqn:E1; [|discriminate].
  cbn [mbind option_bind] in Hm.
  destruct (lazy_dots _ s1) as [[label found]|] eqn:E2; [|discriminate].
  cbn [mbind option_bind] in Hm. injection Hm as ->.
  apply lazy_dots_sound in E2 as (Hlabel & t & -> & Hk).
  destruct (lit (txt "](") t) as [t1|] eqn:E3; [|discriminate].
  cbn [mbind option_bind] in Hk.
  destruct (lit (txt "docs/") t1) as [t2|] eqn:E4; [|discriminate].
  cbn [mbind option_bind] in Hk.
  destruct (lazy_dots _ t2) as [[inner r]|] eqn:E5; [|discriminate].
  cbn [mbind option_bind] in Hk. injection Hk as <- <-.
  apply lazy_dots_sound in E5 as (Hinner & u & -> & Hu).
  apply lit_Some in E1, E3, E4, Hu. subst.
  exists label, inner. unfold markdown_link, doc_target.
  repeat split; auto. rewrite <- !app_assoc. reflexivity.
Qed.

Lemma doc_link_pattern_complete label inner rest :
  LF ∉ label -> LF ∉ inner ->
  is_Some (doc_link_pattern (markdown_link label (doc_target inner) ++ rest)).
Proof.
  intros Hlabel Hinner. unfold doc_link_pattern, markdown_link, doc_target.
  rewrite <- !app_assoc, lit_app. cbn [mbind option_bind].
  match goal with
  | |- context [lazy_dots ?k (label ++ ?r)] =>
      destruct (lazy_dots_complete k label r Hlabel) as [[l' found] ->]
  end.
  - rewrite lit_app. cbn [mbind option_bind].
    rewrite lit_app. cbn [mbind option_bind].
    match goal with
    | |- context [lazy_dots ?k (inner ++ ?r)] =>
        destruct (lazy_dots_complete k inner r Hinner) as [[i' r'] ->]
    end; [|cbn [mbind option_bind]; eauto].
    exists rest. apply lit_Some. reflexivity.
  - cbn [mbind option_bind]. eauto.
Qed.

Lemma doc_link_pattern_consuming : consuming doc_link_pattern.
Proof.
  intros s g rest (label & inner & -> & _)%doc_link_pattern_sound.
  unfold markdown_link. spell. simpl. eauto.
Qed.

(** ** What [re.findall] returns *)

(** Every entry was matched somewhere in the subject. *)
Lemma re_findall_sound m s g :
  consuming m -> g ∈ re_findall m s ->
  exists pre t rest, s = pre ++ t /\ m t = Some (g, rest).
Proof.
  intros Hm. remember (length s) as n eqn:Hn. revert s Hn.
  induction n as [n IH] using lt_wf_ind. intros s -> Hin.
  rewrite re_findall_eq in Hin by assumption.
  destruct (m s) as [[g' rest]|] eqn:E.
  - apply elem_of_cons in Hin as [->|Hin].
    + exists [], s, rest. auto.
    + pose proof (consuming_length _ _ _ _ Hm E) as Hlt.
      destruct (IH _ Hlt rest eq_refl Hin) as (pre & t & r & -> & Ht).
      destruct (Hm _ _ _ E) as (c & matched & ->).
      exists (c :: matched ++ pre), t, r. split; [|exact Ht].
      simpl. rewrite <- app_assoc. reflexivity.
  - destruct s as [|c s]; [inversion Hin|].
    destruct (IH (length s) ltac:(simpl; lia) s eq_refl Hin)
      as (pre & t & r & -> & Ht).
    exists (c :: pre), t, r. auto.
Qed.

(** A place where the pattern matches makes the result non-empty. *)
Lemma re_findall_complete m pre t :
  consuming m -> is_Some (m t) -> re_findall m (pre ++ t) <> [].
Proof.
  intros Hm [[g rest] Ht]. induction pre as [|c pre IH].
  - simpl. rewrite re_findall_eq, Ht by assumption. discriminate.
  - rewrite re_findall_eq by assumption.
    destruct (m ((c :: pre) ++ t)) as [[g' rest']|]; [discriminate|].
    exact IH.
Qed.

Lemma increasing_shift k places :
  increasing places -> increasing ((fun a => k + a) <$> places).
Proof.
  intros Hinc i j a b. rewrite !list_lookup_fmap.
  destruct (places !! i) as [a'|] eqn:Ea; [|discriminate].
  destruct (places !! j) as [b'|] eqn:Eb; [|discriminate].
  intros [= <-] [= <-] Hij. pose proof (Hinc i j a' b' Ea Eb Hij). lia.
Qed.

Lemma increasing_cons_0 places :
  Forall (fun a => 0 < a) places -> increasing places -> increasing (0 :: places).
Proof.
  intros Hpos Hinc [|i] [|j] a b Ha Hb Hij; try lia.
  - injection Ha as <-. simpl in Hb.
    eapply (proj1 (Forall_forall _ _) Hpos), list_elem_of_lookup_2, Hb.
  - simpl in Ha, Hb. apply (Hinc i j a b Ha Hb). lia.
Qed.

(** The entries are the matches at places of the subject that go from left
    to right. *)
Lemma re_findall_places m s :
  consuming m ->
  exists places,
    increasing places /\
    Forall2 (fun at_ g => exists rest, m (drop at_ s) = Some (g, rest))
            places (re_findall m s).
Proof.
  intros Hm. remember (length s) as n eqn:Hn. revert s Hn.
  induction n as [n IH] using lt_wf_ind. intros s ->.
  rewrite re_findall_eq by assumption.
  destruct (m s) as [[g rest]|] eqn:E.
  - pose proof (consuming_length _ _ _ _ Hm E) as Hlt.
    destruct (IH _ Hlt rest eq_refl) as (places & Hinc & Hall).
    destruct (Hm _ _ _ E) as (c & matched & ->).
    exists (0 :: ((fun a => S (length matched) + a) <$> places)). split.
    + apply increasing_cons_0; [|apply increasing_shift, Hinc].
      apply Forall_fmap, Forall_forall. intros a _. simpl. lia.
    + constructor; [exists rest; exact E|].
      apply Forall2_fmap_l. eapply Forall2_impl; [exact Hall|].
      intros a g' [r Hr]. exists r. simpl.
      rewrite drop_app_add. exact Hr.
  - destruct s as [|c s]; [exists []; split; [intros i j a b Hi; inversion Hi|constructor]|].
    destruct (IH (length s) ltac:(simpl; lia) s eq_refl) as (places & Hinc & Hall).
    exists ((fun a => 1 + a) <$> places). split.
    + apply increasing_shift, Hinc.
    + apply Forall2_fmap_l. eapply Forall2_impl; [exact Hall|].
      intros a g [r Hr]. exists r. exact Hr.
Qed.

(** ** [dict.fromkeys] *)

Lemma index_first x l n :
  index x l = Some n ->
  l !! n = Some x /\ forall k, k < n -> l !! k <> Some x.
Proof.
  revert n. induction l as [|y l IH]; intros n; simpl; [discriminate|].
  case_bool_decide as Hy.
  - intros [= <-]. subst. split; [reflexivity|]. intros k Hk. lia.
  - destruct (index x l) as [n'|]; [|discriminate]. intros [= <-].
    destruct (IH n' eq_refl) as [Hn Hfirst]. split; [exact Hn|].
    intros [|k] Hk; simpl; [congruence|]. apply Hfirst. lia.
Qed.

Lemma index_elem x l : x ∈ l -> exists n, index x l = Some n /\ n < length l.
Proof.
  induction l as [|y l IH]; [intros Hin; inversion Hin|].
  intros Hin. simpl. case_bool_decide as Hy.
  - exists 0. split; [reflexivity|lia].
  - apply elem_of_cons in Hin as [->|Hin]; [contradiction|].
    destruct (IH Hin) as (n & -> & Hn). exists (S n). split; [reflexivity|lia].
Qed.

Lemma index_app_l x l l' : x ∈ l -> index x (l ++ l') = index x l.
Proof.
  induction l as [|y l IH]; [intros Hin; inversion Hin|].
  intros Hin. simpl. case_bool_decide as Hy; [reflexivity|].
  apply elem_of_cons in Hin as [->|Hin]; [contradiction|].
  rewrite IH by assumption. reflexivity.
Qed.

Lemma index_app_r x l : x ∉ l -> index x (l ++ [x]) = Some (length l).
Proof.
  induction l as [|y l IH]; intros Hnin; simpl.
  - rewrite bool_decide_eq_true_2; reflexivity.
  - apply not_elem_of_cons in Hnin as [Hne Hnin].
    rewrite bool_decide_eq_false_2 by congruence.
    rewrite IH by assumption. reflexivity.
Qed.

Lemma dict_fromkeys_snoc keys k :
  dict_fromkeys (keys ++ [k]) =
  if bool_decide (k ∈ dict_fromkeys keys) then dict_fromkeys keys
  else dict_fromkeys keys ++ [k].
Proof. unfold dict_fromkeys. rewrite fold_left_app. reflexivity. Qed.

(** The keys come out without repetition, they are the keys that went in,
    and they stand in the order of their first occurrences. *)
Lemma dict_fromkeys_spec keys :
  NoDup (dict_fromkeys keys) /\
  (forall k, k ∈ dict_fromkeys keys <-> k ∈ keys) /\
  (forall i j p q,
      dict_fromkeys keys !! i = Some p -> dict_fromkeys keys !! j = Some q ->
      i < j ->
      exists n m, index p keys = Some n /\ index q keys = Some m /\ n < m).
Proof.
  induction keys as [|k keys (Hnd & Hmem & Hord)] using rev_ind.
  - split; [constructor|]. split; [reflexivity|]. intros i j p q Hi. inversion Hi.
  - rewrite dict_fromkeys_snoc. case_bool_decide as Hk.
    + split; [exact Hnd|]. split.
      * intros x. rewrite elem_of_app, Hmem, list_elem_of_singleton.
        split; [auto|]. intros [Hx| ->]; [exact Hx|]. apply Hmem, Hk.
      * intros i j p q Hi Hj Hij.
        destruct (Hord i j p q Hi Hj Hij) as (n & m & Hn & Hm & Hnm).
        exists n, m. rewrite !index_app_l; auto.
        -- apply Hmem. eapply list_elem_of_lookup_2, Hj.
        -- apply Hmem. eapply list_elem_of_lookup_2, Hi.
    + split; [|split].
      * apply NoDup_app. split; [exact Hnd|]. split; [|apply NoDup_singleton].
        intros x Hx ->%list_elem_of_singleton. contradiction.
      * intros x. rewrite !elem_of_app, Hmem. reflexivity.
      * intros i j p q Hi Hj Hij.
        assert (i < length (dict_fromkeys keys)) as Hi'.
        { apply lookup_lt_Some in Hj. rewrite length_app in Hj. simpl in Hj. lia. }
        rewrite lookup_app_l in Hi by assumption.
        assert (p ∈ keys) as Hp by (eapply Hmem, list_elem_of_lookup_2, Hi).
        destruct (decide (j < length (dict_fromkeys keys))) as [Hj'|Hj'].
        -- rewrite lookup_app_l in Hj by assumption.
           destruct (Hord i j p q Hi Hj Hij) as (n & m & Hn & Hm & Hnm).
           exists n, m. rewrite !index_app_l; auto.
           eapply Hmem, list_elem_of_lookup_2, Hj.
        -- rewrite lookup_app_r in Hj by lia.
           destruct (j - length (dict_fromkeys keys)) as [|?] eqn:Ej;
             [|destruct n; discriminate].
           injection Hj as <-.
           destruct (index_elem p keys Hp) as (n & Hn & Hlt).
           exists n, (length keys). rewrite index_app_l by assumption.
           rewrite index_app_r by (rewrite <- Hmem; exact Hk). auto.
Qed.

(** ** The link extractor *)

(** C2: for every index text, [extract_doc_links_from_readme] returns a
    sequence without duplicate entries.  Its entries are exactly the
    targets that [re.findall] finds, and these are the targets of the
    matches at places of the text that go from left to right; of any two
    entries of the result, the one that stands first is the one whose
    first occurrence among the targets found comes first. *)
Theorem extract_no_duplicates_first_seen_order (readme_content : str) :
  let found := re_findall doc_link_pattern readme_content in
  let out := extract_doc_links_from_readme readme_content in
  NoDup out /\
  (forall p, p ∈ out <-> p ∈ found) /\
  (forall i j p q, out !! i = Some p -> out !! j = Some q -> i < j ->
     exists n m, index p found = Some n /\ index q found = Some m /\ n < m) /\
  (exists places,
     increasing places /\ length places = length found /\
     forall n p, found !! n = Some p ->
       exists at_ rest,
         places !! n = Some at_ /\
         doc_link_pattern (drop at_ readme_content) = Some (p, rest)).
Proof.
  intros found out.
  destruct (dict_fromkeys_spec found) as (Hnd & Hmem & Hord).
  split; [exact Hnd|]. split; [exact Hmem|]. split; [exact Hord|].
  destruct (re_findall_places doc_link_pattern readme_content
              doc_link_pattern_consuming) as (places & Hinc & Hall).
  exists places. split; [exact Hinc|]. split; [eapply Forall2_length, Hall|].
  intros n p Hn.
  destruct (Forall2_lookup_r _ _ _ _ _ Hall Hn) as (at_ & Hat & rest & Hrest).
  eauto.
Qed.

(** C7: an index text in which no markdown link to a "docs/....md" target
    occurs yields the empty sequence; the function is total, so text that
    does not match is passed over without any error. *)
Theorem extract_no_links_empty (readme_content : str) :
  (forall pre label inner post,
      LF ∉ label -> LF ∉ inner ->
      readme_content <> pre ++ markdown_link label (doc_target inner) ++ post) ->
  extract_doc_links_from_readme readme_content = [].
Proof.
  intros Hnone. unfold extract_doc_links_from_readme.
  destruct (re_findall doc_link_pattern readme_content) as [|g found] eqn:E;
    [reflexivity|].
  destruct (re_findall_sound doc_link_pattern readme_content g)
    as (pre & t & rest & -> & Ht).
  - apply doc_link_pattern_consuming.
  - rewrite E. apply elem_of_cons. auto.
  - apply doc_link_pattern_sound in Ht as (label & inner & -> & _ & Hl & Hi).
    exfalso. exact (Hnone pre label inner rest Hl Hi eq_refl).
Qed.

(** C8: every path in the extractor's output is the target of a markdown
    link [[label](path)] that occurs in the input text, and it begins with
    "docs/" and ends with ".md". *)
Theorem extract_targets_are_doc_links (readme_content p : str) :
  p ∈ extract_doc_links_from_readme readme_content ->
  exists pre label inner post,
    readme_content = pre ++ markdown_link label p ++ post /\
    p = doc_target inner /\ (LF ∉ label) /\ (LF ∉ inner).
Proof.
  intros Hp. unfold extract_doc_links_from_readme in Hp.
  destruct (dict_fromkeys_spec (re_findall doc_link_pattern readme_content))
    as (_ & Hmem & _).
  apply Hmem in Hp. clear Hmem.
  apply re_findall_sound in Hp as (pre & t & rest & -> & Ht);
    [|apply doc_link_pattern_consuming].
  apply doc_link_pattern_sound in Ht as (label & inner & -> & -> & Hl & Hi).
  exists pre, label, inner, rest. auto.
Qed.

(** ** Paths *)

Lemma split_not_nil sep s : split sep s <> [].
Proof.
  destruct s as [|c s]; simpl; [discriminate|].
  destruct (N.eqb c sep); [discriminate|].
  destruct (split sep s); discriminate.
Qed.

Lemma split_no_sep sep s : sep ∉ s -> split sep s = [s].
Proof.
  induction s as [|c s IH]; intros Hs; simpl; [reflexivity|].
  apply not_elem_of_cons in Hs as [Hc Hs].
  destruct (N.eqb_spec c sep) as [->|_]; [contradiction|].
  rewrite IH by assumption. reflexivity.
Qed.

Lemma split_app sep a b :
  split sep (a ++ sep :: b) = split sep a ++ split sep b.
Proof.
  induction a as [|c a IH]; simpl.
  - rewrite N.eqb_refl. reflexivity.
  - destruct (N.eqb c sep); [rewrite IH; reflexivity|].
    rewrite IH. pose proof (split_not_nil sep a).
    destruct (split sep a); [contradiction|reflexivity].
Qed.

Lemma split_components sep s w : w ∈ split sep s -> sep ∉ w.
Proof.
  revert w. induction s as [|c s IH]; intros w; simpl.
  - intros ->%list_elem_of_singleton. apply not_elem_of_nil.
  - destruct (N.eqb_spec c sep) as [->|Hc].
    + intros [->|Hw]%elem_of_cons; [apply not_elem_of_nil|auto].
    + pose proof (split_not_nil sep s).
      destruct (split sep s) as [|w0 ws]; [contradiction|].
      intros [->|Hw]%elem_of_cons.
      * apply not_elem_of_cons. split; [congruence|].
        apply IH. apply elem_of_cons. auto.
      * apply IH. apply elem_of_cons. auto.
Qed.

(** Leading slashes only make empty components, so the root can be left
    out of the computation of the components. *)
Lemma Path_tail p :
  tail (Path p) = List.filter proper_component (split SLASH p).
Proof.
  assert (forall s, List.filter proper_component (split SLASH (SLASH :: s)) =
                    List.filter proper_component (split SLASH s)) as Hdrop.
  { intros s. cbn [split]. rewrite N.eqb_refl. reflexivity. }
  unfold Path, splitroot.
  destruct p as [|c1 r1]; [reflexivity|].
  destruct (N.eqb_spec c1 SLASH) as [->|_]; [|reflexivity].
  destruct r1 as [|c2 r2]; [reflexivity|].
  destruct (N.eqb_spec c2 SLASH) as [->|_];
    [|cbn [tail]; rewrite Hdrop; reflexivity].
  destruct r2 as [|c3 r3]; [reflexivity|].
  destruct (N.eqb_spec c3 SLASH) as [->|_]; cbn [tail]; rewrite !Hdrop;
    reflexivity.
Qed.

Lemma name_of_file d base :
  dir_prefix d -> SLASH ∉ base -> base <> [] -> base <> [DOT] ->
  name (Path (d ++ base)) = base.
Proof.
  intros Hd Hslash Hne Hdot. unfold name. rewrite Path_tail.
  assert (proper_component base = true) as Hok.
  { unfold proper_component.
    rewrite !bool_decide_eq_false_2 by assumption. reflexivity. }
  destruct Hd as [->|[d' ->]].
  - simpl. rewrite split_no_sep by assumption. simpl. rewrite Hok. reflexivity.
  - rewrite <- app_assoc. simpl. rewrite split_app, List.filter_app.
    rewrite (split_no_sep _ base) by assumption. simpl. rewrite Hok.
    apply last_last.
Qed.

Lemma name_no_slash p : SLASH ∉ name (Path p).
Proof.
  unfold name. rewrite Path_tail.
  assert (Forall (fun w => SLASH ∉ w)
                 (List.filter proper_component (split SLASH p))) as Hall.
  { apply Forall_forall. intros w Hw. apply list_elem_of_In in Hw.
    apply List.filter_In in Hw as [Hw _]. apply list_elem_of_In in Hw.
    eapply split_components, Hw. }
  induction Hall as [|w [|w' ws] Hw Hall IH]; simpl.
  - apply not_elem_of_nil.
  - exact Hw.
  - exact IH.
Qed.

Lemma rfind_app_dot a b :
  DOT ∉ b -> rfind DOT (a ++ DOT :: b) = Some (length a).
Proof.
  intros Hb. assert (rfind DOT b = None) as Hnone.
  { induction b as [|c b IH]; [reflexivity|].
    apply not_elem_of_cons in Hb as [Hc Hb]. simpl. rewrite IH by assumption.
    destruct (N.eqb_spec c DOT); congruence. }
  induction a as [|c a IH]; simpl.
  - rewrite Hnone. reflexivity.
  - rewrite IH. reflexivity.
Qed.

Lemma stem_of_file d base ext :
  dir_prefix d -> SLASH ∉ base -> SLASH ∉ ext -> DOT ∉ ext ->
  base <> [] -> ext <> [] ->
  stem (Path (d ++ base ++ [DOT] ++ ext)) = base.
Proof.
  intros Hd Hb He Hdot Hbne Hene. unfold stem.
  change (base ++ [DOT] ++ ext) with (base ++ DOT :: ext).
  rewrite name_of_file; auto.
  - rewrite rfind_app_dot by assumption.
    rewrite length_app. simpl.
    destruct base as [|b base]; [contradiction|].
    destruct ext as [|e ext]; [contradiction|]. simpl.
    replace (length base + S (S (length ext)) - 0)
      with (S (length base) + S (length ext)) by lia.
    destruct (Nat.ltb_spec (S (length base)) (S (length base) + S (length ext)));
      [|lia].
    simpl. f_equal. apply take_app_length.
  - intros [Hin|Hin]%elem_of_app; [auto|].
    apply elem_of_cons in Hin as [Heq|Hin]; [discriminate|auto].
  - destruct base; [contradiction|discriminate].
  - destruct base as [|b [|b' base]]; [contradiction| |discriminate].
    destruct ext; [contradiction|discriminate].
Qed.

Lemma split_components_chars sep s w c : w ∈ split sep s -> c ∈ w -> c ∈ s.
Proof.
  revert w. induction s as [|a s IH]; intros w; simpl.
  - intros ->%list_elem_of_singleton Hc. exact Hc.
  - destruct (N.eqb_spec a sep) as [->|Ha].
    + intros [->|Hw]%elem_of_cons Hc; [inversion Hc|].
      apply elem_of_cons. right. eapply IH; eauto.
    + pose proof (split_not_nil sep s).
      destruct (split sep s) as [|w0 ws]; [contradiction|].
      intros [->|Hw]%elem_of_cons Hc.
      * apply elem_of_cons in Hc as [->|Hc]; [apply elem_of_cons; auto|].
        apply elem_of_cons. right. eapply (IH w0); [apply elem_of_cons|]; auto.
      * apply elem_of_cons. right. eapply (IH w); [apply elem_of_cons|]; auto.
Qed.

Lemma last_elem {A} (l : list A) d : l = [] \/ List.last l d ∈ l.
Proof.
  induction l as [|x [|y l] IH]; [left; reflexivity|right..].
  - apply elem_of_cons. auto.
  - destruct IH as [|IH]; [discriminate|]. apply elem_of_cons. right. exact IH.
Qed.

(** The name of a path is made of characters of its text. *)
Lemma name_chars p c : c ∈ name (Path p) -> c ∈ p.
Proof.
  unfold name. rewrite Path_tail. intros Hc.
  destruct (last_elem (List.filter proper_component (split SLASH p)) [])
    as [Hnil|Hin].
  - rewrite Hnil in Hc. inversion Hc.
  - apply list_elem_of_In, List.filter_In in Hin as [Hin _].
    apply list_elem_of_In in Hin. eapply split_components_chars; eauto.
Qed.

Lemma stem_chars p c : c ∈ stem (Path p) -> c ∈ p.
Proof.
  unfold stem. intros Hc. apply name_chars.
  destruct (rfind DOT (name (Path p))) as [i|]; [|exact Hc].
  destruct (_ && _); [|exact Hc].
  rewrite <- (take_drop i (name (Path p))). apply elem_of_app. auto.
Qed.

(** ** Titles *)

Section TitleFacts.
Context {ucd : UnicodeData}.

Lemma do_title_ascii before previous_is_cased s :
  isascii s = true ->
  do_title before previous_is_cased s = capitalize_words previous_is_cased s.
Proof.
  revert before previous_is_cased.
  induction s as [|c s IH]; intros before b Hs; [reflexivity|].
  simpl in Hs. apply andb_true_iff in Hs as [Hc Hs].
  apply N.ltb_lt in Hc. cbn [do_title capitalize_words].
  rewrite IH, ascii_cased by assumption.
  unfold lower_ucs4. rewrite ascii_title, ascii_lower_row by assumption.
  destruct (N.eqb_spec c SIGMA) as [->|_]; [unfold SIGMA in Hc; lia|].
  destruct b; reflexivity.
Qed.

Lemma title_ascii s : isascii s = true -> title s = capitalize_words false s.
Proof. apply do_title_ascii. Qed.

Lemma do_title_no_LF before previous_is_cased s :
  LF ∉ s -> LF ∉ do_title before previous_is_cased s.
Proof.
  revert before previous_is_cased.
  induction s as [|c s IH]; intros before b Hs; [exact Hs|].
  apply not_elem_of_cons in Hs as [Hc Hs]. cbn [do_title].
  apply not_elem_of_app. split; [|apply IH; exact Hs].
  destruct b; [|apply title_row_no_LF; congruence].
  unfold lower_ucs4. destruct (N.eqb c SIGMA).
  - unfold handle_capital_sigma.
    destruct (_ && _); intros Hin%list_elem_of_singleton; discriminate.
  - apply lower_row_no_LF. congruence.
Qed.

Lemma nav_name_no_LF f : LF ∉ f -> LF ∉ nav_name f.
Proof.
  intros Hf. apply do_title_no_LF. unfold replace.
  intros (c & Hc & Hin)%list_elem_of_fmap.
  apply stem_chars in Hin.
  destruct (N.eqb c UNDERSCORE); [discriminate|]. subst. contradiction.
Qed.

Lemma prev_entry_no_LF f : LF ∉ f -> LF ∉ prev_entry f.
Proof.
  intros Hf. unfold prev_entry, get_relative_link.
  pose proof (nav_name_no_LF f Hf) as Hn.
  assert (LF ∉ name (Path f)) as Hl by (intros Hin%name_chars; contradiction).
  spell. rewrite !not_elem_of_app. repeat split; auto;
    intros Hin; repeat (apply elem_of_cons in Hin as [Hin|Hin];
                        [discriminate|]); inversion Hin.
Qed.

Lemma next_entry_no_LF f : LF ∉ f -> LF ∉ next_entry f.
Proof.
  intros Hf. unfold next_entry, get_relative_link.
  pose proof (nav_name_no_LF f Hf) as Hn.
  assert (LF ∉ name (Path f)) as Hl by (intros Hin%name_chars; contradiction).
  spell. rewrite !not_elem_of_app. repeat split; auto;
    intros Hin; repeat (apply elem_of_cons in Hin as [Hin|Hin];
                        [discriminate|]); inversion Hin.
Qed.

(** C6: the label of a Previous or Next link carries the title of the
    neighbour, which is computed from the file's base name without
    extension ([stem]), with every underscore replaced by a space,
    title-cased: on ASCII text each run of letters gets a capital first
    letter and small letters after it.  The title for "my_file.md" is
    "My File" and the title for "a_b_c.md" is "A B C". *)
Theorem title_derivation :
  (forall f, exists target,
      prev_entry f =
      markdown_link ([LARR] ++ txt " Previous: " ++ nav_name f) target) /\
  (forall f, exists target,
      next_entry f =
      markdown_link (txt "Next: " ++ nav_name f ++ txt " " ++ [RARR]) target) /\
  (forall f, nav_name f = title (replace UNDERSCORE SPACE (stem (Path f)))) /\
  (forall d base ext,
      dir_prefix d -> SLASH ∉ base -> SLASH ∉ ext -> DOT ∉ ext ->
      base <> [] -> ext <> [] ->
      nav_name (d ++ base ++ [DOT] ++ ext) =
      title (replace UNDERSCORE SPACE base)) /\
  (forall s, (UNDERSCORE ∉ replace UNDERSCORE SPACE s) /\
             length (replace UNDERSCORE SPACE s) = length s /\
             forall i c, s !! i = Some c ->
               replace UNDERSCORE SPACE s !! i =
               Some (if N.eqb c UNDERSCORE then SPACE else c)) /\
  (forall s, isascii s = true -> title s = capitalize_words false s) /\
  nav_name (txt "my_file.md") = txt "My File" /\
  nav_name (txt "a_b_c.md") = txt "A B C".
Proof.
  split; [|split].
  { intros f. exists (get_relative_link f).
    unfold prev_entry, markdown_link. rewrite <- !app_assoc. reflexivity. }
  { intros f. exists (get_relative_link f).
    unfold next_entry, markdown_link. rewrite <- !app_assoc. reflexivity. }
  split; [reflexivity|]. split; [|split; [|split; [|split]]].
  - intros d base ext Hd Hb He Hdot Hbne Hene. unfold nav_name.
    rewrite stem_of_file; auto.
  - intros s. unfold replace. split; [|split].
    + intros (c & Hc & _)%list_elem_of_fmap.
      destruct (N.eqb_spec c UNDERSCORE); [discriminate|congruence].
    + apply length_map.
    + induction s as [|a s IH]; intros [|i] c Hi; try discriminate.
      * injection Hi as ->. reflexivity.
      * exact (IH i c Hi).
  - apply title_ascii.
  - unfold nav_name.
    change (replace UNDERSCORE SPACE (stem (Path (txt "my_file.md"))))
      with (txt "my file").
    rewrite title_ascii by reflexivity. reflexivity.
  - unfold nav_name.
    change (replace UNDERSCORE SPACE (stem (Path (txt "a_b_c.md"))))
      with (txt "a b c").
    rewrite title_ascii by reflexivity. reflexivity.
Qed.

(** C9: the target written into a Previous or Next link is
    [get_relative_link] of the neighbour path, which is its last
    component alone: it never contains "/", for a path made of a
    directory part and a file name it is the file name, and "docs/a.md"
    gives "a.md". *)
Theorem link_target_is_base_name :
  (forall f, exists label,
      prev_entry f = markdown_link label (get_relative_link f)) /\
  (forall f, exists label,
      next_entry f = markdown_link label (get_relative_link f)) /\
  (forall f, SLASH ∉ get_relative_link f) /\
  (forall d base,
      dir_prefix d -> SLASH ∉ base -> base <> [] -> base <> [DOT] ->
      get_relative_link (d ++ base) = base) /\
  get_relative_link (txt "docs/a.md") = txt "a.md".
Proof.
  split; [|split; [|split; [|split]]].
  - intros f. exists ([LARR] ++ txt " Previous: " ++ nav_name f).
    unfold prev_entry, markdown_link. rewrite <- !app_assoc. reflexivity.
  - intros f. exists (txt "Next: " ++ nav_name f ++ txt " " ++ [RARR]).
    unfold next_entry, markdown_link. rewrite <- !app_assoc. reflexivity.
  - intros f. apply name_no_slash.
  - intros d base. apply name_of_file.
  - reflexivity.
Qed.
End TitleFacts.

(** ** The pattern of a navigation line *)

Lemma nav_line_pattern_Some mark s rest :
  nav_line_pattern mark s = Some (tt, rest) <->
  exists mid, s = txt "[" ++ mark ++ mid ++ LF :: rest /\ (LF ∉ mid).
Proof.
  unfold nav_line_pattern. split.
  - intros Hm.
    destruct (lit (txt "[" ++ mark) s) as [s1|] eqn:E1; [|discriminate].
    cbn [mbind option_bind] in Hm.
    destruct (lazy_dots _ s1) as [[mid r]|] eqn:E2; [|discriminate].
    cbn [mbind option_bind] in Hm. injection Hm as <-.
    apply lazy_dots_sound in E2 as (Hmid & u & -> & Hu).
    apply lit_Some in E1, Hu. subst. exists mid.
    rewrite <- !app_assoc. auto.
  - intros (mid & -> & Hmid).
    replace (txt "[" ++ mark ++ mid ++ LF :: rest)
      with ((txt "[" ++ mark) ++ mid ++ [LF] ++ rest)
      by (rewrite <- !app_assoc; reflexivity).
    rewrite lit_app. cbn [mbind option_bind].
    rewrite (lazy_dots_first _ mid _ rest); [reflexivity|exact Hmid| |reflexivity].
    intros i Hi. destruct (drop i mid) as [|c t] eqn:E.
    + apply (f_equal length) in E. rewrite length_drop in E. simpl in E. lia.
    + simpl. destruct (N.eqb_spec LF c) as [<-|_]; [|reflexivity].
      exfalso. apply Hmid. rewrite <- (take_drop i mid), E.
      apply elem_of_app. right. apply elem_of_cons. auto.
Qed.

Lemma nav_line_pattern_consuming mark : consuming (nav_line_pattern mark).
Proof.
  intros s [] rest (mid & -> & _)%nav_line_pattern_Some.
  spell. simpl. exists 91%N, (mark ++ mid ++ [LF]).
  rewrite <- !app_assoc. reflexivity.
Qed.

Lemma startswith_app_LF needle line rest :
  LF ∉ needle ->
  startswith needle (line ++ LF :: rest) = startswith needle line.
Proof.
  revert line. unfold startswith.
  induction needle as [|a needle IH]; intros line Hn; [reflexivity|].
  apply not_elem_of_cons in Hn as [Ha Hn].
  destruct line as [|c line]; simpl.
  - destruct (N.eqb_spec a LF); [congruence|reflexivity].
  - destruct (N.eqb a c); [apply IH; exact Hn|reflexivity].
Qed.

Lemma nav_line_pattern_line mark line rest :
  LF ∉ mark -> LF ∉ line ->
  nav_line_pattern mark (line ++ LF :: rest) =
  if startswith (txt "[" ++ mark) line then Some (tt, rest) else None.
Proof.
  intros Hmark Hline.
  assert (LF ∉ txt "[" ++ mark) as Hneedle.
  { spell. apply not_elem_of_cons. split; [discriminate|exact Hmark]. }
  destruct (startswith (txt "[" ++ mark) line) eqn:E.
  - apply startswith_true in E as [mid ->].
    apply nav_line_pattern_Some. exists mid.
    rewrite <- !app_assoc. split; [reflexivity|].
    intros Hin. apply Hline. rewrite !elem_of_app. auto.
  - rewrite <- (startswith_app_LF _ _ rest Hneedle) in E.
    unfold nav_line_pattern, startswith in *.
    destruct (lit _ _); [discriminate|reflexivity].
Qed.

Section Passes.
Variable mark : str.
Hypothesis mark_one_line : LF ∉ mark.

Local Abbreviation pass := (re_sub (nav_line_pattern mark) []).

Lemma pass_eq s :
  pass s =
  match nav_line_pattern mark s with
  | Some (_, rest) => pass rest
  | None => match s with [] => [] | c :: s' => c :: pass s' end
  end.
Proof.
  rewrite re_sub_eq by apply nav_line_pattern_consuming.
  destruct (nav_line_pattern mark s) as [[[] rest]|]; reflexivity.
Qed.

(** A pass works line by line. *)
Lemma pass_line line rest :
  LF ∉ line ->
  pass (line ++ LF :: rest) = kept_of_line mark line ++ pass rest.
Proof using mark_one_line.
  unfold kept_of_line.
  induction line as [|c line IH]; intros Hline.
  - rewrite pass_eq, (nav_line_pattern_line mark [] rest) by assumption.
    cbn [before_first]. spell. reflexivity.
  - rewrite pass_eq, (nav_line_pattern_line mark (c :: line) rest)
      by assumption.
    cbn [before_first].
    destruct (startswith _ (c :: line)); [reflexivity|].
    apply not_elem_of_cons in Hline as [_ Hline].
    cbn [app]. rewrite IH by assumption.
    destruct (before_first _ line); reflexivity.
Qed.

(** Text in which the pattern matches nowhere is left as it is; this is
    so after the last newline, *)
Lemma pass_no_match s :
  (forall pre t, s = pre ++ t -> nav_line_pattern mark t = None) ->
  pass s = s.
Proof.
  induction s as [|c s IH]; intros Hnone; rewrite pass_eq.
  - rewrite (Hnone [] []); reflexivity.
  - rewrite (Hnone [] (c :: s)) by reflexivity. f_equal. apply IH.
    intros pre t ->. apply (Hnone (c :: pre)). reflexivity.
Qed.


(** and in text without the mark. *)
Lemma pass_unmarked s : contains (txt "[" ++ mark) s = false -> pass s = s.
Proof.
  intros Hs. apply pass_no_match. intros pre t ->.
  destruct (nav_line_pattern mark t) as [[[] rest]|] eqn:E; [|reflexivity].
  apply nav_line_pattern_Some in E as (mid & -> & _).
  exfalso. apply (proj1 (contains_false _ _) Hs pre (mid ++ LF :: rest)).
  rewrite <- !app_assoc. reflexivity.
Qed.

Lemma pass_unmarked_then s rest :
  contains (txt "[" ++ mark) s = false ->
  pass (s ++ LF :: rest) = s ++ LF :: pass rest.
Proof using mark_one_line.
  induction s as [|c s IH]; intros Hs.
  - apply (pass_line [] rest). apply not_elem_of_nil.
  - cbn [contains] in Hs. apply orb_false_iff in Hs as [Hstart Hs].
    rewrite pass_eq. cbn [app].
    destruct (nav_line_pattern mark (c :: s ++ LF :: rest)) as [[[] r]|] eqn:E.
    + apply nav_line_pattern_Some in E as (mid & E & _).
      assert (startswith (txt "[" ++ mark) ((c :: s) ++ LF :: rest) = true)
        as Hst.
      { apply startswith_true. exists (mid ++ LF :: r).
        rewrite <- app_assoc. exact E. }
      rewrite startswith_app_LF in Hst; [congruence|].
      spell. apply not_elem_of_cons. split; [discriminate|assumption].
    + f_equal. apply IH. exact Hs.
Qed.
End Passes.

(** ** [strip] *)

Lemma lstrip_whitespace_app ws s :
  all_whitespace ws = true -> lstrip (ws ++ s) = lstrip s.
Proof.
  induction ws as [|c ws IH]; intros Hws; [reflexivity|].
  simpl in Hws. apply andb_true_iff in Hws as [Hc Hws].
  simpl. rewrite Hc. apply IH, Hws.
Qed.

Lemma lstrip_decompose s :
  exists ws, s = ws ++ lstrip s /\ all_whitespace ws = true.
Proof.
  induction s as [|c s (ws & Hs & Hws)]; [exists []; auto|].
  simpl. destruct (is_whitespace c) eqn:Hc.
  - exists (c :: ws). simpl. rewrite Hc, Hws, <- Hs. auto.
  - exists []. auto.
Qed.

Lemma lstrip_fixed c s : lstrip (c :: s) = c :: s <-> is_whitespace c = false.
Proof.
  simpl. destruct (is_whitespace c); [|split; reflexivity].
  split; [|discriminate]. intros Heq.
  destruct (lstrip_decompose s) as (ws & Hs & _).
  apply (f_equal length) in Hs, Heq. rewrite length_app in Hs. simpl in Heq. lia.
Qed.

Lemma lstrip_idem s : lstrip (lstrip s) = lstrip s.
Proof.
  induction s as [|c s IH]; [reflexivity|]. simpl.
  destruct (is_whitespace c) eqn:Hc; [exact IH|]. simpl. rewrite Hc. reflexivity.
Qed.

Lemma lstrip_fixed_app b t : lstrip b = b -> b <> [] -> lstrip (b ++ t) = b ++ t.
Proof.
  destruct b as [|c b]; [contradiction|]. intros Hb%lstrip_fixed _.
  simpl. rewrite Hb. reflexivity.
Qed.

Lemma all_whitespace_rev ws : all_whitespace (rev ws) = all_whitespace ws.
Proof.
  unfold all_whitespace. apply eq_true_iff_eq.
  rewrite !forallb_forall. split; intros Hall c Hc; apply Hall.
  - apply in_rev. rewrite rev_involutive. exact Hc.
  - apply in_rev in Hc. exact Hc.
Qed.

Lemma rstrip_app_whitespace s ws :
  all_whitespace ws = true -> rstrip (s ++ ws) = rstrip s.
Proof.
  intros Hws. unfold rstrip. rewrite rev_app_distr.
  rewrite lstrip_whitespace_app by (rewrite all_whitespace_rev; exact Hws).
  reflexivity.
Qed.

Lemma strip_trimmed s : trimmed (strip s).
Proof.
  unfold trimmed, strip. split.
  - unfold rstrip.
    destruct (lstrip_decompose (rev (lstrip s))) as (ws & Hs & Hws).
    set (u := lstrip (rev (lstrip s))) in *.
    destruct (rev u) as [|c r] eqn:Eu; [reflexivity|].
    apply lstrip_fixed.
    apply (f_equal (@rev char)) in Hs.
    rewrite rev_involutive, rev_app_distr, Eu in Hs.
    pose proof (lstrip_idem s) as Hidem. rewrite Hs in Hidem.
    simpl in Hidem. destruct (is_whitespace c) eqn:Hc; [|reflexivity].
    exfalso. destruct (lstrip_decompose (r ++ rev ws)) as (ws' & Hd & _).
    apply (f_equal length) in Hd, Hidem.
    rewrite !length_app in Hd. simpl in Hidem. rewrite !length_app in Hidem.
    lia.
  - unfold rstrip at 1 2. rewrite rev_involutive, lstrip_idem. reflexivity.
Qed.

(** Whitespace around trimmed text is all that [strip] removes. *)
Lemma strip_around ws1 b ws2 :
  all_whitespace ws1 = true -> all_whitespace ws2 = true -> trimmed b ->
  strip (ws1 ++ b ++ ws2) = b.
Proof.
  intros H1 H2 [Hl Hr]. unfold strip. rewrite lstrip_whitespace_app by exact H1.
  destruct b as [|c b].
  - simpl. destruct (lstrip_decompose ws2) as (ws & Hs & _).
    assert (lstrip ws2 = []) as ->; [|reflexivity].
    clear -H2. induction ws2 as [|c ws2 IH]; [reflexivity|].
    simpl in *. apply andb_true_iff in H2 as [-> H2]. auto.
  - rewrite lstrip_fixed_app by (auto; discriminate).
    rewrite rstrip_app_whitespace by exact H2. exact Hr.
Qed.

Lemma strip_idem s : strip (strip s) = strip s.
Proof.
  rewrite <- (app_nil_r (strip s)) at 1.
  apply (strip_around [] (strip s) []); auto using strip_trimmed.
Qed.

(** ** The navigation injector *)

Lemma contains_cons_false c needle hay :
  contains needle hay = false -> contains (c :: needle) hay = false.
Proof.
  rewrite !contains_false. intros Hn a b ->.
  apply (Hn (a ++ [c]) b). rewrite <- app_assoc. reflexivity.
Qed.

Lemma PREVIOUS_MARK_one_line : LF ∉ PREVIOUS_MARK.
Proof.
  unfold PREVIOUS_MARK. spell. intros Hin.
  repeat (apply elem_of_cons in Hin as [Hin|Hin]; [discriminate|]).
  inversion Hin.
Qed.

Lemma NEXT_MARK_one_line : LF ∉ NEXT_MARK.
Proof.
  unfold NEXT_MARK. spell. intros Hin.
  repeat (apply elem_of_cons in Hin as [Hin|Hin]; [discriminate|]).
  inversion Hin.
Qed.

(** Content without the marks is not changed by the substitutions, so the
    test that guards them makes no difference. *)
Lemma without_nav_lines_unmarked content :
  contains (txt "[" ++ PREVIOUS_MARK) content = false ->
  contains (txt "[" ++ NEXT_MARK) content = false ->
  without_nav_lines content = content.
Proof.
  intros Hp Hn. unfold without_nav_lines.
  rewrite (pass_unmarked PREVIOUS_MARK) by exact Hp.
  apply pass_unmarked. exact Hn.
Qed.

Section Injector.
Context {ucd : UnicodeData}.

Lemma navigation_absent prev next :
  absent prev -> absent next -> navigation prev next = [].
Proof. intros [-> | ->] [-> | ->]; reflexivity. Qed.

Lemma navigation_present prev next :
  present prev \/ present next -> navigation prev next <> [].
Proof.
  unfold navigation.
  intros [(p & -> & Hp)|(n & -> & Hn)].
  - destruct p; [contradiction|discriminate].
  - destruct n; [contradiction|].
    destruct prev as [[|? ?]|]; discriminate.
Qed.

Lemma separator_one_line : LF ∉ txt " | ".
Proof.
  spell. intros Hin.
  repeat (apply elem_of_cons in Hin as [Hin|Hin]; [discriminate|]).
  inversion Hin.
Qed.

Lemma nav_text_one_line prev next :
  one_line prev -> one_line next ->
  LF ∉ join (txt " | ") (navigation prev next).
Proof.
  intros Hp Hn. pose proof separator_one_line as Hsep.
  assert (forall f, prev = Some f -> LF ∉ prev_entry f) as Hpe
    by (intros f Hf; apply prev_entry_no_LF, Hp, Hf).
  assert (forall f, next = Some f -> LF ∉ next_entry f) as Hne
    by (intros f Hf; apply next_entry_no_LF, Hn, Hf).
  unfold navigation.
  destruct prev as [[|c p]|], next as [[|d n]|]; cbn [app join];
    rewrite ?not_elem_of_app; auto using not_elem_of_nil.
Qed.

Lemma add_navigation_links_framed content prev next :
  navigation prev next <> [] ->
  add_navigation_links content prev next =
  framed (join (txt " | ") (navigation prev next))
         (strip (without_nav_lines content)).
Proof.
  intros Hnav. unfold add_navigation_links.
  destruct (navigation prev next) as [|entry nav] eqn:E; [contradiction|].
  assert ((if contains PREVIOUS_MARK content || contains NEXT_MARK content
           then re_sub (nav_line_pattern NEXT_MARK) []
                  (re_sub (nav_line_pattern PREVIOUS_MARK) [] content)
           else content) = without_nav_lines content) as ->.
  { destruct (_ || _) eqn:G; [reflexivity|].
    apply orb_false_iff in G as [Gp Gn].
    rewrite without_nav_lines_unmarked; [reflexivity| |].
    - exact (contains_cons_false 91%N _ _ Gp).
    - exact (contains_cons_false 91%N _ _ Gn). }
  unfold framed. rewrite <- !app_assoc. reflexivity.
Qed.

(** C3: with both neighbours absent the content is returned unchanged,
    which is the case of a list of one file; with only the previous
    neighbour present the navigation line is the one link
    "[← Previous: <title>](<file name>)", with only the next neighbour
    present it is the one link "[Next: <title> →](<file name>)".  So the
    page after "docs/a.md" alone gets "[← Previous: A](a.md)", in which no
    "Next:" occurs, and the page before "docs/b.md" alone gets
    "[Next: B →](b.md)", in which no "Previous:" occurs.  The first file
    of a list has no previous neighbour, the last one no next
    neighbour. *)
Theorem boundary_behaviour :
  (forall content prev next,
      absent prev -> absent next ->
      add_navigation_links content prev next = content) /\
  (forall content f,
      add_navigation_links content (prev_of [f] 0) (next_of [f] 0) = content) /\
  (forall content p next,
      p <> [] -> absent next ->
      navigation (Some p) next =
        [txt "[" ++ [LARR] ++ txt " Previous: " ++ nav_name p ++
         txt "](" ++ get_relative_link p ++ txt ")"] /\
      add_navigation_links content (Some p) next =
      framed (txt "[" ++ [LARR] ++ txt " Previous: " ++ nav_name p ++
              txt "](" ++ get_relative_link p ++ txt ")")
             (strip (without_nav_lines content))) /\
  (forall content prev n,
      absent prev -> n <> [] ->
      navigation prev (Some n) =
        [txt "[Next: " ++ nav_name n ++ txt " " ++ [RARR] ++
         txt "](" ++ get_relative_link n ++ txt ")"] /\
      add_navigation_links content prev (Some n) =
      framed (txt "[Next: " ++ nav_name n ++ txt " " ++ [RARR] ++
              txt "](" ++ get_relative_link n ++ txt ")")
             (strip (without_nav_lines content))) /\
  (forall content next,
      absent next ->
      add_navigation_links content (Some (txt "docs/a.md")) next =
        framed (txt "[" ++ [LARR] ++ txt " Previous: A](a.md)")
               (strip (without_nav_lines content)) /\
      contains NEXT_MARK (txt "[" ++ [LARR] ++ txt " Previous: A](a.md)")
        = false) /\
  (forall content prev,
      absent prev ->
      add_navigation_links content prev (Some (txt "docs/b.md")) =
        framed (txt "[Next: B " ++ [RARR] ++ txt "](b.md)")
               (strip (without_nav_lines content)) /\
      contains (txt "Previous:") (txt "[Next: B " ++ [RARR] ++ txt "](b.md)")
        = false) /\
  (forall doc_files, prev_of doc_files 0 = None) /\
  (forall doc_files, next_of doc_files (length doc_files - 1) = None).
Proof.
  assert (forall content p next,
      p <> [] -> absent next ->
      navigation (Some p) next = [prev_entry p] /\
      add_navigation_links content (Some p) next =
      framed (prev_entry p) (strip (without_nav_lines content))) as Hprev.
  { intros content p next Hp Hn.
    assert (navigation (Some p) next = [prev_entry p]) as Hnav.
    { destruct p; [contradiction|]. destruct Hn as [-> | ->]; reflexivity. }
    split; [exact Hnav|].
    rewrite add_navigation_links_framed by (rewrite Hnav; discriminate).
    rewrite Hnav. reflexivity. }
  assert (forall content prev n,
      absent prev -> n <> [] ->
      navigation prev (Some n) = [next_entry n] /\
      add_navigation_links content prev (Some n) =
      framed (next_entry n) (strip (without_nav_lines content))) as Hnext.
  { intros content prev n Hp Hn.
    assert (navigation prev (Some n) = [next_entry n]) as Hnav.
    { destruct n; [contradiction|]. destruct Hp as [-> | ->]; reflexivity. }
    split; [exact Hnav|].
    rewrite add_navigation_links_framed by (rewrite Hnav; discriminate).
    rewrite Hnav. reflexivity. }
  assert (nav_name (txt "docs/a.md") = txt "A") as Ha.
  { unfold nav_name.
    change (replace UNDERSCORE SPACE (stem (Path (txt "docs/a.md"))))
      with (txt "a").
    rewrite title_ascii by reflexivity. reflexivity. }
  assert (nav_name (txt "docs/b.md") = txt "B") as Hb.
  { unfold nav_name.
    change (replace UNDERSCORE SPACE (stem (Path (txt "docs/b.md"))))
      with (txt "b").
    rewrite title_ascii by reflexivity. reflexivity. }
  split; [|split; [|split; [|split; [|split; [|split; [|split]]]]]].
  - intros content prev next Hp Hn. unfold add_navigation_links.
    rewrite navigation_absent by assumption. reflexivity.
  - reflexivity.
  - exact Hprev.
  - exact Hnext.
  - intros content next Hn. split; [|reflexivity].
    destruct (Hprev content (txt "docs/a.md") next) as [_ Heq];
      [discriminate|exact Hn|].
    etransitivity; [exact Heq|].
    unfold prev_entry. rewrite Ha. reflexivity.
  - intros content prev Hp. split; [|reflexivity].
    destruct (Hnext content prev (txt "docs/b.md")) as [_ Heq];
      [exact Hp|discriminate|].
    etransitivity; [exact Heq|].
    unfold next_entry. rewrite Hb. reflexivity.
  - reflexivity.
  - intros doc_files. unfold next_of.
    rewrite Nat.ltb_irrefl. reflexivity.
Qed.

(** C5: when at least one neighbour is present, the result is the
    navigation line, the trimmed body and the same navigation line again,
    each navigation line with a blank line before and after it; the
    navigation line joins the links of the neighbours that are present
    with " | ", and it is one line when the neighbour paths are.  The body
    is the content without the navigation lines it had, stripped of
    surrounding whitespace; for content without marks it is the stripped
    content. *)
Theorem navigation_above_and_below content prev next :
  present prev \/ present next ->
  let nav_text := join (txt " | ") (navigation prev next) in
  let body := strip (without_nav_lines content) in
  add_navigation_links content prev next =
    [LF] ++ nav_text ++ [LF] ++ [LF] ++ body ++ [LF] ++
    [LF] ++ nav_text ++ [LF] ++ [LF] /\
  trimmed body /\
  (one_line prev -> one_line next -> LF ∉ nav_text) /\
  (contains (txt "[" ++ PREVIOUS_MARK) content = false ->
   contains (txt "[" ++ NEXT_MARK) content = false ->
   body = strip content) /\
  (forall p n, prev = Some p -> p <> [] -> next = Some n -> n <> [] ->
     nav_text = prev_entry p ++ txt " | " ++ next_entry n) /\
  (forall p, prev = Some p -> p <> [] -> absent next ->
     nav_text = prev_entry p) /\
  (forall n, absent prev -> next = Some n -> n <> [] ->
     nav_text = next_entry n).
Proof.
  intros Hpresent nav_text body.
  split; [|split; [|split; [|split; [|split; [|split]]]]].
  - apply add_navigation_links_framed, navigation_present, Hpresent.
  - apply strip_trimmed.
  - apply nav_text_one_line.
  - intros Hp Hn. unfold body.
    rewrite without_nav_lines_unmarked by assumption. reflexivity.
  - intros p n -> Hp -> Hn. unfold nav_text.
    destruct p; [contradiction|]. destruct n; [contradiction|]. reflexivity.
  - intros p -> Hp Hn. unfold nav_text.
    destruct p; [contradiction|]. destruct Hn as [-> | ->]; reflexivity.
  - intros n Hp -> Hn. unfold nav_text.
    destruct n; [contradiction|]. destruct Hp as [-> | ->]; reflexivity.
Qed.
End Injector.

(** A page with its previous neighbour only, one with its next neighbour
    only, and one without neighbours. *)
Lemma boundary_behaviour_example :
  add_navigation_links (ucd := basic_latin) (txt "hello" ++ [LF])
    (Some (txt "docs/my_file.md")) None =
    [LF] ++ txt "[" ++ [LARR] ++ txt " Previous: My File](my_file.md)" ++
    [LF; LF] ++ txt "hello" ++ [LF; LF] ++
    txt "[" ++ [LARR] ++ txt " Previous: My File](my_file.md)" ++ [LF; LF] /\
  add_navigation_links (ucd := basic_latin) (txt "hello" ++ [LF])
    None (Some (txt "docs/b.md")) =
    [LF] ++ txt "[Next: B " ++ [RARR] ++ txt "](b.md)" ++
    [LF; LF] ++ txt "hello" ++ [LF; LF] ++
    txt "[Next: B " ++ [RARR] ++ txt "](b.md)" ++ [LF; LF] /\
  add_navigation_links (ucd := basic_latin) (txt "hello" ++ [LF]) None None =
    txt "hello" ++ [LF].
Proof.
  destruct (boundary_behaviour (ucd := basic_latin))
    as (Hnone & _ & Hprev & Hnext & _).
  split; [|split].
  - destruct (Hprev (txt "hello" ++ [LF]) (txt "docs/my_file.md") None)
      as [_ Heq]; [discriminate|left; reflexivity|].
    etransitivity; [exact Heq|]. vm_compute. reflexivity.
  - destruct (Hnext (txt "hello" ++ [LF]) None (txt "docs/b.md"))
      as [_ Heq]; [left; reflexivity|discriminate|].
    etransitivity; [exact Heq|]. vm_compute. reflexivity.
  - apply Hnone; left; reflexivity.
Defined.

(** ** What the substitutions delete *)

Lemma before_first_Some needle line pre :
  before_first needle line = Some pre ->
  exists post, line = pre ++ needle ++ post.
Proof.
  revert pre. induction line as [|c line IH]; intros pre; cbn [before_first].
  - destruct (startswith needle []) eqn:E; [|discriminate].
    intros [= <-]. apply startswith_true in E. exact E.
  - destruct (startswith needle (c :: line)) eqn:E.
    + intros [= <-]. apply startswith_true in E. exact E.
    + destruct (before_first needle line) as [pre'|]; [|discriminate].
      intros [= <-]. destruct (IH pre' eq_refl) as [post ->]. eauto.
Qed.



Section Deletion.
Context {ucd : UnicodeData}.

End Deletion.

(** ** Running the injector again *)

Lemma pass_LF mark rest :
  LF ∉ mark ->
  re_sub (nav_line_pattern mark) [] (LF :: rest) =
  LF :: re_sub (nav_line_pattern mark) [] rest.
Proof. intros Hone. apply (pass_line mark Hone [] rest), not_elem_of_nil. Qed.

Lemma pass_nil mark : re_sub (nav_line_pattern mark) [] [] = [].
Proof. reflexivity. Qed.

Lemma kept_of_line_startswith mark line :
  startswith (txt "[" ++ mark) line = true -> kept_of_line mark line = [].
Proof.
  intros Hs. unfold kept_of_line.
  destruct line; cbn [before_first]; rewrite Hs; reflexivity.
Qed.

(** In a line that begins with "[Next:", a "[← Previous:" can only stand
    behind this beginning. *)
Lemma before_first_previous_in_next_line line pre :
  startswith (txt "[" ++ NEXT_MARK) line = true ->
  before_first (txt "[" ++ PREVIOUS_MARK) line = Some pre ->
  startswith (txt "[" ++ NEXT_MARK) pre = true.
Proof.
  intros [r ->]%startswith_true. unfold NEXT_MARK, PREVIOUS_MARK. spell.
  simpl. destruct (before_first _ r) as [pre'|]; [|discriminate].
  simpl. intros [= <-]. reflexivity.
Qed.

(** The injector's own result, cleaned and stripped again, gives back the
    body it was built from. *)
Lemma framed_body_recovered nav_text body :
  LF ∉ nav_text ->
  startswith (txt "[" ++ PREVIOUS_MARK) nav_text = true \/
  startswith (txt "[" ++ NEXT_MARK) nav_text = true ->
  trimmed body ->
  contains (txt "[" ++ PREVIOUS_MARK) body = false ->
  contains (txt "[" ++ NEXT_MARK) body = false ->
  strip (without_nav_lines (framed nav_text body)) = body.
Proof.
  intros Hnav Hstart Htrim Hbp Hbn.
  pose proof PREVIOUS_MARK_one_line as HP.
  pose proof NEXT_MARK_one_line as HN.
  unfold without_nav_lines, framed. cbn [app].
  rewrite (pass_LF _ _ HP), (pass_line _ HP) by exact Hnav.
  rewrite (pass_LF _ _ HP), (pass_unmarked_then _ HP) by exact Hbp.
  rewrite (pass_LF _ _ HP), (pass_line _ HP) by exact Hnav.
  rewrite (pass_LF _ _ HP), pass_nil.
  destruct (startswith (txt "[" ++ PREVIOUS_MARK) nav_text) eqn:Sp.
  - (* the line begins with the Previous link: the first pass deletes it *)
    rewrite (kept_of_line_startswith _ _ Sp). cbn [app].
    rewrite !(pass_LF _ _ HN), (pass_unmarked_then _ HN) by exact Hbn.
    rewrite !(pass_LF _ _ HN), pass_nil.
    apply (strip_around [LF; LF] body [LF; LF; LF]); auto.
  - destruct Hstart as [Hstart|Sn]; [discriminate|].
    unfold kept_of_line at 1 2.
    destruct (before_first (txt "[" ++ PREVIOUS_MARK) nav_text) as [pre|] eqn:E.
    + (* a Next link with a Previous mark inside: the first pass cuts it
         short, the second deletes what is left of it *)
      pose proof (before_first_previous_in_next_line _ _ Sn E) as Spre.
      apply before_first_Some in E as [post E].
      assert (LF ∉ pre) as Hpre.
      { intros Hin. apply Hnav. rewrite E. apply elem_of_app. auto. }
      rewrite (pass_LF _ _ HN), (pass_line _ HN) by exact Hpre.
      rewrite (kept_of_line_startswith _ _ Spre). cbn [app].
      rewrite (pass_unmarked_then _ HN) by exact Hbn.
      rewrite (pass_LF _ _ HN), (pass_line _ HN) by exact Hpre.
      rewrite (kept_of_line_startswith _ _ Spre), pass_nil. cbn [app].
      apply (strip_around [LF] body [LF; LF]); auto.
    + (* a Next link: the first pass keeps it, the second deletes it *)
      rewrite <- !app_assoc. cbn [app].
      rewrite (pass_LF _ _ HN), (pass_line _ HN) by exact Hnav.
      rewrite (kept_of_line_startswith _ _ Sn). cbn [app].
      rewrite (pass_LF _ _ HN), (pass_unmarked_then _ HN) by exact Hbn.
      rewrite (pass_LF _ _ HN), (pass_line _ HN) by exact Hnav.
      rewrite (kept_of_line_startswith _ _ Sn). cbn [app].
      rewrite (pass_LF _ _ HN), pass_nil.
      apply (strip_around [LF; LF] body [LF; LF; LF]); auto.
Qed.

Section Idempotence.
Context {ucd : UnicodeData}.

Lemma nav_text_startswith prev next :
  navigation prev next <> [] ->
  startswith (txt "[" ++ PREVIOUS_MARK) (join (txt " | ") (navigation prev next))
    = true \/
  startswith (txt "[" ++ NEXT_MARK) (join (txt " | ") (navigation prev next))
    = true.
Proof.
  unfold navigation.
  destruct prev as [[|c p]|], next as [[|d n]|]; cbn [app join];
    intros Hnav; try contradiction;
    try (left; apply startswith_true; unfold prev_entry, PREVIOUS_MARK;
         spell; cbn [app]; eexists; reflexivity);
    right; apply startswith_true; unfold next_entry, NEXT_MARK;
    spell; cbn [app]; eexists; reflexivity.
Qed.

(** Where a second run changes nothing: for neighbour paths without a
    newline and content whose body, as the first run keeps it (the content
    without the segments it deletes, stripped), contains neither
    "[← Previous:" nor "[Next:", running the injector a second time with
    the same neighbours gives the result of the first run. *)
Theorem injector_idempotent content prev next :
  one_line prev -> one_line next ->
  contains (txt "[" ++ PREVIOUS_MARK) (strip (without_nav_lines content))
    = false ->
  contains (txt "[" ++ NEXT_MARK) (strip (without_nav_lines content))
    = false ->
  add_navigation_links (add_navigation_links content prev next) prev next =
  add_navigation_links content prev next.
Proof.
  intros Hp Hn Hbp Hbn.
  destruct (navigation prev next) as [|entry nav] eqn:E.
  - unfold add_navigation_links. rewrite E. reflexivity.
  - assert (navigation prev next <> []) as Hnav by (rewrite E; discriminate).
    rewrite !(add_navigation_links_framed _ prev next) by exact Hnav.
    f_equal. apply framed_body_recovered; auto.
    + apply nav_text_one_line; assumption.
    + apply nav_text_startswith, Hnav.
    + apply strip_trimmed.
Qed.
End Idempotence.

(** Text that the injector did not write can keep it from being
    idempotent: a last line "[Next: steps](steps.md)" without a newline
    survives the first run and is deleted by the second.  So can a
    neighbour path with a newline in it: the second run deletes the first
    line of the navigation text only. *)
Lemma injector_not_idempotent :
  (let content := txt "Intro" ++ [LF] ++ txt "[Next: steps](steps.md)" in
   let next := Some (txt "docs/b.md") in
   let nav_text := txt "[Next: B " ++ [RARR] ++ txt "](b.md)" in
   let once := add_navigation_links (ucd := basic_latin) content None next in
   let twice := add_navigation_links (ucd := basic_latin) once None next in
   once = framed nav_text
            (txt "Intro" ++ [LF] ++ txt "[Next: steps](steps.md)") /\
   twice = framed nav_text (txt "Intro") /\
   twice <> once) /\
  (let content := txt "x" in
   let prev := Some (txt "docs/a" ++ [LF] ++ txt "b.md") in
   let nav_text :=
     txt "[" ++ [LARR] ++ txt " Previous: A" ++ [LF] ++ txt "B](a" ++ [LF] ++
     txt "b.md)" in
   let once := add_navigation_links (ucd := basic_latin) content prev None in
   let twice := add_navigation_links (ucd := basic_latin) once prev None in
   once = framed nav_text (txt "x") /\
   twice <> once).
Proof. vm_compute. repeat split; discriminate. Qed.

(** A page that carries the navigation of an earlier run, with another
    neighbour, is such content. *)
Lemma injector_idempotent_on_own_result :
  let content :=
    framed (txt "[Next: Old " ++ [RARR] ++ txt "](old.md)") (txt "hello") in
  let prev := Some (txt "docs/a.md") in
  let next := Some (txt "docs/c.md") in
  add_navigation_links (ucd := basic_latin)
    (add_navigation_links (ucd := basic_latin) content prev next) prev next =
  add_navigation_links (ucd := basic_latin) content prev next.
Proof.
  apply (injector_idempotent (ucd := basic_latin)).
  - intros f [= <-]. apply (bool_decide_unpack _). vm_compute. exact I.
  - intros f [= <-]. apply (bool_decide_unpack _). vm_compute. exact I.
  - vm_compute. reflexivity.
  - vm_compute. reflexivity.
Defined.



(** A page between two neighbours. *)
Lemma navigation_above_and_below_example :
  let content := [LF] ++ txt "  hello" ++ [LF; LF] in
  let prev := Some (txt "docs/a.md") in
  let next := Some (txt "docs/c_d.md") in
  let nav_text :=
    txt "[" ++ [LARR] ++ txt " Previous: A](a.md) | [Next: C D " ++ [RARR] ++
    txt "](c_d.md)" in
  add_navigation_links (ucd := basic_latin) content prev next =
  [LF] ++ nav_text ++ [LF] ++ [LF] ++ txt "hello" ++ [LF] ++
  [LF] ++ nav_text ++ [LF] ++ [LF].
Proof.
  intros content prev next nav_text.
  destruct (navigation_above_and_below (ucd := basic_latin) content prev next)
    as (Hres & _).
  - left. exists (txt "docs/a.md"). split; [reflexivity|discriminate].
  - rewrite Hres. vm_compute. reflexivity.
Defined.

(** The converse of [doc_link_pattern_sound], for whole texts: a link in
    the text makes the extractor's result non-empty. *)
Lemma extract_finds_links pre label inner post :
  LF ∉ label -> LF ∉ inner ->
  extract_doc_links_from_readme
    (pre ++ markdown_link label (doc_target inner) ++ post) <> [].
Proof.
  intros Hl Hi Hnil. unfold extract_doc_links_from_readme in Hnil.
  destruct (dict_fromkeys_spec
              (re_findall doc_link_pattern
                 (pre ++ markdown_link label (doc_target inner) ++ post)))
    as (_ & Hmem & _).
  rewrite Hnil in Hmem.
  apply (re_findall_complete doc_link_pattern pre
           (markdown_link label (doc_target inner) ++ post)).
  - apply doc_link_pattern_consuming.
  - apply doc_link_pattern_complete; assumption.
  - destruct (re_findall _ _) as [|g found]; [reflexivity|].
    exfalso. apply (not_elem_of_nil g), Hmem, elem_of_cons. auto.
Qed.

(** A link that does not lead into "docs/" and a path that is not in a
    link are no documentation links. *)
Lemma extract_no_links_example :
  extract_doc_links_from_readme
    (txt "See [the guide](guide/intro.md) and docs/a.md.") = [].
Proof.
  apply extract_no_links_empty.
  intros pre label inner post Hl Hi Heq.
  apply (extract_finds_links pre label inner post Hl Hi).
  rewrite <- Heq. vm_compute. reflexivity.
Defined.

(** The second link of a table row. *)
Lemma extract_targets_example :
  exists pre label inner post,
    txt "| [Intro](docs/intro.md) | [Setup](docs/set_up.md) |" =
      pre ++ markdown_link label (txt "docs/set_up.md") ++ post /\
    txt "docs/set_up.md" = doc_target inner /\ (LF ∉ label) /\ (LF ∉ inner).
Proof.
  apply (extract_targets_are_doc_links
           (txt "| [Intro](docs/intro.md) | [Setup](docs/set_up.md) |")
           (txt "docs/set_up.md")).
  vm_compute. apply elem_of_cons. right. apply elem_of_cons. left. reflexivity.
Defined.

(** * Further properties of the injector *)

Lemma all_whitespace_unmarked mark content :
  all_whitespace content = true ->
  contains (txt "[" ++ mark) content = false.
Proof.
  intros Hws. apply contains_false. intros a b ->.
  unfold all_whitespace in Hws. rewrite forallb_app in Hws.
  apply andb_true_iff in Hws as [_ Hws]. spell. simpl in Hws.
  discriminate.
Qed.

Lemma lstrip_all_whitespace s : all_whitespace s = true -> lstrip s = [].
Proof.
  induction s as [|c s IH]; [reflexivity|]. simpl.
  intros [-> Hs]%andb_true_iff. auto.
Qed.

Lemma lstrip_sublist s : lstrip s `sublist_of` s.
Proof.
  destruct (lstrip_decompose s) as (ws & Hs & _).
  rewrite Hs at 2. apply sublist_inserts_l. reflexivity.
Qed.

Lemma rstrip_sublist s : rstrip s `sublist_of` s.
Proof.
  unfold rstrip. destruct (lstrip_decompose (rev s)) as (ws & Hs & _).
  apply (f_equal (@rev char)) in Hs. rewrite rev_involutive, rev_app_distr in Hs.
  rewrite Hs at 2. apply sublist_inserts_r. reflexivity.
Qed.

Lemma strip_sublist s : strip s `sublist_of` s.
Proof.
  unfold strip. etransitivity; [apply rstrip_sublist|apply lstrip_sublist].
Qed.

Lemma pass_sublist mark s :
  re_sub (nav_line_pattern mark) [] s `sublist_of` s.
Proof.
  remember (length s) as n eqn:Hn. revert s Hn.
  induction n as [n IH] using lt_wf_ind. intros s ->.
  rewrite pass_eq.
  destruct (nav_line_pattern mark s) as [[[] rest]|] eqn:E.
  - pose proof (consuming_length _ _ _ _ (nav_line_pattern_consuming mark) E)
      as Hlt.
    destruct (nav_line_pattern_consuming mark _ _ _ E) as (c & matched & ->).
    apply (sublist_inserts_l (c :: matched)). exact (IH _ Hlt rest eq_refl).
  - destruct s as [|c s]; [reflexivity|].
    apply sublist_skip. apply (IH (length s)); simpl; auto.
Qed.

Section InjectorMore.
Context {ucd : UnicodeData}.

(** X1: the last run wins.  When a page that carries the navigation of an
    earlier run (for neighbours without a newline in their paths) is given
    other neighbours, of which at least one is present, the result is what
    the new neighbours give on the original content: the old navigation is
    replaced, not kept.  As for a second run with the same neighbours, the
    body that the first run keeps must be free of the two marks. *)
Theorem injector_last_run_wins content prev next prev' next' :
  one_line prev -> one_line next ->
  present prev' \/ present next' ->
  contains (txt "[" ++ PREVIOUS_MARK) (strip (without_nav_lines content))
    = false ->
  contains (txt "[" ++ NEXT_MARK) (strip (without_nav_lines content))
    = false ->
  add_navigation_links (add_navigation_links content prev next) prev' next' =
  add_navigation_links content prev' next'.
Proof.
  intros Hp Hn Hnew Hbp Hbn. apply navigation_present in Hnew.
  destruct (navigation prev next) as [|entry nav] eqn:E.
  - unfold add_navigation_links at 2. rewrite E. reflexivity.
  - assert (navigation prev next <> []) as Hnav by (rewrite E; discriminate).
    rewrite (add_navigation_links_framed content prev next) by exact Hnav.
    rewrite !(add_navigation_links_framed _ prev' next') by exact Hnew.
    f_equal. apply framed_body_recovered; auto.
    + apply nav_text_one_line; assumption.
    + apply nav_text_startswith, Hnav.
    + apply strip_trimmed.
Qed.

(** X2: content that is empty or made of whitespace only gives, with a
    neighbour present, the two navigation lines around an empty body. *)
Theorem injector_on_blank_content content prev next :
  all_whitespace content = true ->
  present prev \/ present next ->
  add_navigation_links content prev next =
  framed (join (txt " | ") (navigation prev next)) [].
Proof.
  intros Hws Hpresent.
  rewrite add_navigation_links_framed by (apply navigation_present, Hpresent).
  rewrite without_nav_lines_unmarked by (apply all_whitespace_unmarked, Hws).
  unfold strip. rewrite lstrip_all_whitespace by exact Hws. reflexivity.
Qed.

(** X3: the injector writes no text of its own into the body: with a
    neighbour present the result is the navigation text around a body that
    is a subsequence of the content (characters are deleted, none is added
    or moved), and this body does not begin or end with whitespace. *)
Theorem injector_body_from_content content prev next :
  present prev \/ present next ->
  exists body,
    add_navigation_links content prev next =
      framed (join (txt " | ") (navigation prev next)) body /\
    body `sublist_of` content /\
    trimmed body.
Proof.
  intros Hpresent. exists (strip (without_nav_lines content)).
  split; [apply add_navigation_links_framed, navigation_present, Hpresent|].
  split; [|apply strip_trimmed].
  etransitivity; [apply strip_sublist|]. unfold without_nav_lines.
  etransitivity; apply pass_sublist.
Qed.
End InjectorMore.

(** A page written by a run between "a" and "c" is run again between "b"
    and nothing. *)
Lemma injector_last_run_wins_example :
  let content := txt "# Title" ++ [LF; LF] ++ txt "Text." ++ [LF] in
  let a := Some (txt "docs/a.md") in
  let b := Some (txt "docs/b.md") in
  let c := Some (txt "docs/c.md") in
  add_navigation_links (ucd := basic_latin)
    (add_navigation_links (ucd := basic_latin) content a c) b None =
  add_navigation_links (ucd := basic_latin) content b None.
Proof.
  apply (injector_last_run_wins (ucd := basic_latin)).
  - intros f [= <-]. apply (bool_decide_unpack _). vm_compute. exact I.
  - intros f [= <-]. apply (bool_decide_unpack _). vm_compute. exact I.
  - left. exists (txt "docs/b.md"). split; [reflexivity|discriminate].
  - vm_compute. reflexivity.
  - vm_compute. reflexivity.
Defined.

(** A page of blank lines. *)
Lemma injector_on_blank_content_example :
  add_navigation_links (ucd := basic_latin) [LF; SPACE; LF] None
    (Some (txt "docs/b.md")) =
  framed (txt "[Next: B " ++ [RARR] ++ txt "](b.md)") [].
Proof.
  apply (injector_on_blank_content (ucd := basic_latin)).
  - reflexivity.
  - right. exists (txt "docs/b.md"). split; [reflexivity|discriminate].
Defined.

(** A page with a line that the first pass deletes. *)
Lemma injector_body_from_content_example :
  exists body,
    add_navigation_links (ucd := basic_latin)
      (txt "one" ++ [LF] ++ txt "[" ++ [LARR] ++ txt " Previous: x" ++ [LF] ++
       txt "two") (Some (txt "docs/a.md")) None =
      framed (txt "[" ++ [LARR] ++ txt " Previous: A](a.md)") body /\
    body `sublist_of`
      (txt "one" ++ [LF] ++ txt "[" ++ [LARR] ++ txt " Previous: x" ++ [LF] ++
       txt "two") /\
    trimmed body.
Proof.
  apply (injector_body_from_content (ucd := basic_latin)).
  left. exists (txt "docs/a.md"). split; [reflexivity|discriminate].
Defined.

(** * Further properties of the extractor *)

Lemma lazy_dots_shortest {A} (k : str -> option A) s skipped a :
  lazy_dots k s = Some (skipped, a) ->
  forall i, i < length skipped -> k (drop i s) = None.
Proof.
  revert skipped. induction s as [|c s IH]; intros skipped; simpl.
  - destruct (k []); [|discriminate]. intros [= <- _] i Hi. simpl in Hi. lia.
  - destruct (k (c :: s)) eqn:E.
    + intros [= <- _] i Hi. simpl in Hi. lia.
    + destruct (N.eqb c LF); [discriminate|].
      destruct (lazy_dots k s) as [[sk a']|] eqn:E'; [|discriminate].
      intros [= <- <-] [|i] Hi; [exact E|].
      simpl in Hi |- *. apply (IH sk eq_refl). lia.
Qed.

(** The target that a match yields ends at the first ".md)". *)
Lemma doc_link_pattern_shortest s g rest :
  doc_link_pattern s = Some (g, rest) ->
  forall a b, g ++ txt ")" = a ++ txt ".md)" ++ b -> b = [].
Proof.
  unfold doc_link_pattern. intros Hm.
  destruct (lit (txt "[") s) as [s1|] eqn:E1; [|discriminate].
  cbn [mbind option_bind] in Hm.
  destruct (lazy_dots _ s1) as [[label found]|] eqn:E2; [|discriminate].
  cbn [mbind option_bind] in Hm. injection Hm as ->.
  apply lazy_dots_sound in E2 as (_ & t & _ & Hk).
  destruct (lit (txt "](") t) as [t1|] eqn:E3; [|discriminate].
  cbn [mbind option_bind] in Hk.
  destruct (lit (txt "docs/") t1) as [t2|] eqn:E4; [|discriminate].
  cbn [mbind option_bind] in Hk.
  destruct (lazy_dots _ t2) as [[inner r]|] eqn:E5; [|discriminate].
  assert (g = doc_target inner) as ->
    by (cbn [mbind option_bind] in Hk; injection Hk as <- _; reflexivity).
  clear Hk.
  pose proof (lazy_dots_shortest _ _ _ _ E5) as Hshort.
  apply lazy_dots_sound in E5 as (_ & u & -> & Hu). apply lit_Some in Hu.
  subst u. intros a b Hab. destruct b as [|b0 b]; [reflexivity|exfalso].
  unfold doc_target in Hab. rewrite <- !app_assoc in Hab.
  assert (exists a', a = txt "docs/" ++ a') as [a' ->].
  { revert Hab. spell. intros Hab.
    destruct a as [|c1 [|c2 [|c3 [|c4 [|c5 a']]]]]; simpl in Hab;
      try discriminate.
    injection Hab as <- <- <- <- <- _. eauto. }
  rewrite <- app_assoc in Hab. apply app_inv_head in Hab.
  assert (length a' < length inner) as Hlt.
  { apply (f_equal length) in Hab. rewrite !length_app in Hab.
    simpl in Hab. lia. }
  specialize (Hshort (length a') Hlt).
  replace (inner ++ txt ".md)" ++ r)
    with (a' ++ txt ".md)" ++ (b0 :: b) ++ r) in Hshort.
  - rewrite drop_app_length, lit_app in Hshort. discriminate.
  - change (txt ".md" ++ txt ")") with (txt ".md)") in Hab.
    rewrite (app_assoc inner (txt ".md)") r), Hab, <- !app_assoc.
    reflexivity.
Qed.

(** X4: the lazy [.*?] of the pattern makes a target end at the first
    ".md)" behind "docs/": in an extracted path followed by its closing
    parenthesis, ".md)" occurs at the very end only. *)
Theorem extract_target_ends_at_first_md (readme_content p : str) :
  p ∈ extract_doc_links_from_readme readme_content ->
  forall a b, p ++ txt ")" = a ++ txt ".md)" ++ b -> b = [].
Proof.
  intros Hp. unfold extract_doc_links_from_readme in Hp.
  destruct (dict_fromkeys_spec (re_findall doc_link_pattern readme_content))
    as (_ & Hmem & _).
  apply Hmem in Hp. clear Hmem.
  apply re_findall_sound in Hp as (pre & t & rest & -> & Ht);
    [|apply doc_link_pattern_consuming].
  exact (doc_link_pattern_shortest _ _ _ Ht).
Qed.

(** Of two links on a line the first one ends the first target. *)
Lemma extract_target_ends_at_first_md_example :
  extract_doc_links_from_readme (txt "[A](docs/a.md) and [B](docs/b.md)") =
    [txt "docs/a.md"; txt "docs/b.md"] /\
  (forall a b, txt "docs/a.md" ++ txt ")" = a ++ txt ".md)" ++ b -> b = []).
Proof.
  split; [vm_compute; reflexivity|].
  apply (extract_target_ends_at_first_md
           (txt "[A](docs/a.md) and [B](docs/b.md)") (txt "docs/a.md")).
  vm_compute. apply elem_of_cons. left. reflexivity.
Defined.

Lemma dict_fromkeys_sublist keys : dict_fromkeys keys `sublist_of` keys.
Proof.
  induction keys as [|k keys IH] using rev_ind; [reflexivity|].
  rewrite dict_fromkeys_snoc. case_bool_decide.
  - apply sublist_inserts_r, IH.
  - apply sublist_app; [exact IH|reflexivity].
Qed.

Lemma dict_fromkeys_NoDup keys : NoDup keys -> dict_fromkeys keys = keys.
Proof.
  induction keys as [|k keys IH] using rev_ind; [reflexivity|].
  intros (Hnd & Hk & _)%NoDup_app. rewrite dict_fromkeys_snoc, IH by exact Hnd.
  rewrite bool_decide_eq_false_2; [reflexivity|].
  intros Hin. apply (Hk k Hin), list_elem_of_singleton. reflexivity.
Qed.

(** X5: the extractor only drops entries: its result is a subsequence of
    the targets found, in their order, and when no target is found twice
    it is the list of the targets found. *)
Theorem extract_drops_repetitions_only (readme_content : str) :
  extract_doc_links_from_readme readme_content
    `sublist_of` re_findall doc_link_pattern readme_content /\
  (NoDup (re_findall doc_link_pattern readme_content) ->
   extract_doc_links_from_readme readme_content =
   re_findall doc_link_pattern readme_content).
Proof.
  split; [apply dict_fromkeys_sublist|apply dict_fromkeys_NoDup].
Qed.

(** An entry of the extractor's result: a target on one line. *)
Lemma extract_entry_shape readme_content p :
  p ∈ extract_doc_links_from_readme readme_content ->
  p <> [] /\ (LF ∉ p).
Proof.
  intros Hp. unfold extract_doc_links_from_readme in Hp.
  destruct (dict_fromkeys_spec (re_findall doc_link_pattern readme_content))
    as (_ & Hmem & _).
  apply Hmem in Hp. clear Hmem.
  apply re_findall_sound in Hp as (pre & t & rest & -> & Ht);
    [|apply doc_link_pattern_consuming].
  apply doc_link_pattern_sound in Ht as (label & inner & _ & -> & _ & Hi).
  unfold doc_target. split; [spell; discriminate|].
  spell. rewrite !not_elem_of_app. repeat split; auto;
    intros Hin; repeat (apply elem_of_cons in Hin as [Hin|Hin];
                        [discriminate|]); inversion Hin.
Qed.

Section Neighbours.
Context {ucd : UnicodeData}.

(** X6: in the list the extractor returns, the neighbours the loop takes
    for the entry at place [i] are the entries at [i - 1] and [i + 1]
    where these exist (the lookups never leave the list), they are
    non-empty paths on one line, the first entry has no previous and the
    last no next neighbour; so with two or more entries every page gets a
    navigation line. *)
Theorem neighbours_of_extracted readme_content i f :
  extract_doc_links_from_readme readme_content !! i = Some f ->
  let doc_files := extract_doc_links_from_readme readme_content in
  (i = 0 -> prev_of doc_files i = None) /\
  (0 < i -> exists p, prev_of doc_files i = Some p /\
                      doc_files !! (i - 1) = Some p /\
                      p <> [] /\ (LF ∉ p)) /\
  (i + 1 = length doc_files -> next_of doc_files i = None) /\
  (i + 1 < length doc_files ->
     exists n, next_of doc_files i = Some n /\
               doc_files !! (i + 1) = Some n /\
               n <> [] /\ (LF ∉ n)) /\
  (2 <= length doc_files ->
     navigation (prev_of doc_files i) (next_of doc_files i) <> []).
Proof.
  intros Hi doc_files. pose proof (lookup_lt_Some _ _ _ Hi) as Hlt.
  fold doc_files in Hlt.
  assert (0 < i -> exists p, prev_of doc_files i = Some p /\
                      doc_files !! (i - 1) = Some p /\
                      p <> [] /\ (LF ∉ p)) as Hprev.
  { intros Hpos. unfold prev_of.
    destruct (Nat.ltb_spec 0 i) as [_|]; [|lia].
    destruct (lookup_lt_is_Some_2 doc_files (i - 1) ltac:(lia)) as [p Hp].
    exists p. rewrite Hp. repeat split;
      eapply extract_entry_shape, list_elem_of_lookup_2, Hp. }
  assert (i + 1 < length doc_files ->
     exists n, next_of doc_files i = Some n /\
               doc_files !! (i + 1) = Some n /\
               n <> [] /\ (LF ∉ n)) as Hnext.
  { intros Hin. unfold next_of.
    destruct (Nat.ltb_spec i (length doc_files - 1)) as [_|]; [|lia].
    destruct (lookup_lt_is_Some_2 doc_files (i + 1) Hin) as [n Hn].
    exists n. rewrite Hn. repeat split;
      eapply extract_entry_shape, list_elem_of_lookup_2, Hn. }
  split; [intros ->; reflexivity|]. split; [exact Hprev|].
  split; [|split; [exact Hnext|]].
  - intros Hlast. unfold next_of.
    destruct (Nat.ltb_spec i (length doc_files - 1)); [lia|reflexivity].
  - intros Htwo. apply navigation_present.
    destruct (decide (0 < i)) as [Hpos|Hzero].
    + left. destruct (Hprev Hpos) as (p & -> & _ & Hne & _). exists p. auto.
    + right. destruct (Hnext ltac:(lia)) as (n & -> & _ & Hne & _).
      exists n. auto.
Qed.
End Neighbours.

(** The middle one of three pages. *)
Lemma neighbours_of_extracted_example :
  let doc_files :=
    extract_doc_links_from_readme
      (txt "[A](docs/a.md) [B](docs/b.md) [C](docs/c.md)") in
  (1 = 0 -> prev_of doc_files 1 = None) /\
  (0 < 1 -> exists p, prev_of doc_files 1 = Some p /\
                      doc_files !! (1 - 1) = Some p /\
                      p <> [] /\ (LF ∉ p)) /\
  (1 + 1 = length doc_files -> next_of doc_files 1 = None) /\
  (1 + 1 < length doc_files ->
     exists n, next_of doc_files 1 = Some n /\
               doc_files !! (1 + 1) = Some n /\
               n <> [] /\ (LF ∉ n)) /\
  (2 <= length doc_files ->
     navigation (ucd := basic_latin)
       (prev_of doc_files 1) (next_of doc_files 1) <> []).
Proof.
  apply (neighbours_of_extracted (ucd := basic_latin)
           (txt "[A](docs/a.md) [B](docs/b.md) [C](docs/c.md)") 1
           (txt "docs/b.md")).
  vm_compute. reflexivity.
Defined.

(** * Further properties of the paths *)

Lemma name_proper_or_empty p :
  name (Path p) = [] \/ proper_component (name (Path p)) = true.
Proof.
  unfold name. rewrite Path_tail.
  destruct (last_elem (List.filter proper_component (split SLASH p)) [])
    as [-> |Hin]; [left; reflexivity|right].
  apply list_elem_of_In, List.filter_In in Hin as [_ Hin]. exact Hin.
Qed.

(** X7: [get_relative_link] gives a plain file name: applying it to its
    own result changes nothing, the result is never ".", and a "/" at the
    end of the path makes no difference. *)
Theorem get_relative_link_normal (file_path : str) :
  get_relative_link (get_relative_link file_path) =
    get_relative_link file_path /\
  get_relative_link file_path <> [DOT] /\
  get_relative_link (file_path ++ [SLASH]) = get_relative_link file_path.
Proof.
  unfold get_relative_link. split; [|split].
  - destruct (name_proper_or_empty file_path) as [-> |Hproper];
      [reflexivity|].
    apply andb_true_iff in Hproper as [Hne Hdot].
    apply negb_true_iff, bool_decide_eq_false in Hne, Hdot.
    apply (name_of_file [] (name (Path file_path))); auto.
    + left. reflexivity.
    + apply name_no_slash.
  - destruct (name_proper_or_empty file_path) as [-> |Hproper];
      [discriminate|].
    apply andb_true_iff in Hproper as [_ Hdot].
    apply negb_true_iff, bool_decide_eq_false in Hdot. exact Hdot.
  - unfold name. rewrite !Path_tail, split_app, List.filter_app.
    simpl. rewrite app_nil_r. reflexivity.
Qed.

Lemma split_join comps :
  comps <> [] -> Forall (fun c => SLASH ∉ c) comps ->
  split SLASH (join [SLASH] comps) = comps.
Proof.
  induction comps as [|c [|c' comps] IH]; intros Hne Hall; [contradiction| |].
  - simpl. apply split_no_sep. inversion Hall; assumption.
  - change (join [SLASH] (c :: c' :: comps))
      with (c ++ SLASH :: join [SLASH] (c' :: comps)).
    inversion Hall as [|? ? Hc Hall']; subst.
    rewrite split_app, split_no_sep, IH by (auto; discriminate). reflexivity.
Qed.

(** A path text in normal form is parsed into its components. *)
Lemma Path_join comps :
  comps <> [] ->
  Forall (fun c => (SLASH ∉ c) /\ proper_component c = true) comps ->
  Path (join [SLASH] comps) = {| root := []; tail := comps |}.
Proof.
  intros Hne Hall.
  assert (Forall (fun c => SLASH ∉ c) comps) as Hslash
    by (eapply Forall_impl; [exact Hall|]; intros c [Hc _]; exact Hc).
  assert (List.filter proper_component comps = comps) as Hfilter.
  { clear Hne Hslash. induction Hall as [|c comps [_ Hc] _ IH]; [reflexivity|].
    simpl. rewrite Hc, IH. reflexivity. }
  assert (splitroot (join [SLASH] comps) = ([], join [SLASH] comps)) as Hroot.
  { destruct comps as [|c comps]; [contradiction|].
    inversion Hall as [|? ? [Hc Hproper] _]; subst.
    destruct c as [|c0 c]; [discriminate|].
    apply not_elem_of_cons in Hc as [Hc0 _].
    match goal with
    | |- splitroot ?j = _ => destruct j as [|x r] eqn:Ej; [reflexivity|]
    end.
    assert (x = c0) as -> by (destruct comps; simpl in Ej; congruence).
    unfold splitroot. destruct (N.eqb_spec c0 SLASH); [congruence|reflexivity]. }
  unfold Path. rewrite Hroot, split_join, Hfilter by assumption. reflexivity.
Qed.

(** X8: for a README in the working directory (its path is a plain file
    name) the loop looks for a link's file under the path of the link
    itself, whatever the README is called; and for a link in normal form
    (components without "/" that are neither empty nor ".", joined by
    "/") this path is the text of the link. *)
Theorem links_resolved_from_working_directory (readme_name : str) :
  SLASH ∉ readme_name ->
  (forall f, joinpath (parent (Path readme_name)) f = Path f) /\
  (forall comps,
      comps <> [] ->
      Forall (fun c => (SLASH ∉ c) /\ proper_component c = true) comps ->
      target (Path readme_name) (join [SLASH] comps) = join [SLASH] comps).
Proof.
  intros Hname.
  assert (forall f, joinpath (parent (Path readme_name)) f = Path f) as Hjoin.
  { intros f.
    assert (root (parent (Path readme_name)) ++
            join [SLASH] (tail (parent (Path readme_name))) = []) as Hempty.
    { unfold Path.
      assert (splitroot readme_name = ([], readme_name)) as ->.
      { destruct readme_name as [|c r]; [reflexivity|].
        apply not_elem_of_cons in Hname as [Hc _]. unfold splitroot.
        destruct (N.eqb_spec c SLASH); [congruence|reflexivity]. }
      rewrite split_no_sep by exact Hname. unfold parent. simpl.
      destruct (proper_component readme_name); reflexivity. }
    unfold joinpath. rewrite Hempty. unfold posix_join.
    destruct (startswith [SLASH] f); reflexivity. }
  split; [exact Hjoin|].
  intros comps Hne Hall. unfold target. rewrite Hjoin, Path_join by assumption.
  unfold path_str. simpl.
  destruct comps as [|c comps]; [contradiction|].
  inversion Hall as [|? ? [_ Hproper] _]; subst.
  destruct c as [|c0 c]; [discriminate|].
  destruct comps; reflexivity.
Qed.

(** README.md and the link "docs/a.md". *)
Lemma links_resolved_from_working_directory_example :
  (forall f, joinpath (parent (Path (txt "README.md"))) f = Path f) /\
  (forall comps,
      comps <> [] ->
      Forall (fun c => (SLASH ∉ c) /\ proper_component c = true) comps ->
      target (Path (txt "README.md")) (join [SLASH] comps) =
      join [SLASH] comps).
Proof.
  apply (links_resolved_from_working_directory (txt "README.md")).
  apply (bool_decide_unpack _). vm_compute. exact I.
Defined.

(** * The orchestrator *)

Lemma for_each_app {A} (body : A -> io unit) l1 l2 w :
  for_each body (l1 ++ l2) w =
  match for_each body l1 w with
  | (Returned _, w1) => for_each body l2 w1
  | (Raised e, w1) => (Raised e, w1)
  end.
Proof.
  revert w. induction l1 as [|x l1 IH]; intros w; [reflexivity|].
  cbn [app for_each]. unfold mbind, io_bind.
  destruct (body x w) as [[[]|e] w1]; [apply IH|reflexivity].
Qed.

Lemma same_nodes_refl w : same_nodes w w.
Proof. split; [reflexivity|]. intros p. tauto. Qed.

Lemma same_nodes_trans w1 w2 w3 :
  same_nodes w1 w2 -> same_nodes w2 w3 -> same_nodes w1 w3.
Proof.
  intros [Hr1 H1] [Hr2 H2]. split; [congruence|]. intros p.
  specialize (H1 p). specialize (H2 p). tauto.
Qed.

Lemma same_nodes_write w p data data' out :
  files w !! p = Some (File data) ->
  same_nodes {| realpath := realpath w;
                files := <[p := File data']> (files w);
                stdout := out |} w.
Proof.
  intros Hp. split; [reflexivity|]. intros q. cbn [files].
  destruct (decide (p = q)) as [<-|Hne].
  - rewrite lookup_insert_eq, Hp. repeat split; discriminate.
  - rewrite lookup_insert_ne by assumption. tauto.
Qed.

Lemma same_nodes_print w out :
  same_nodes {| realpath := realpath w; files := files w; stdout := out |} w.
Proof. split; [reflexivity|]. intros p. cbn [files]. tauto. Qed.

Section Orchestrator.
Context {ucd : UnicodeData}.

Lemma process_file_missing readme_path doc_files i current_file w :
  files w !! file_of w readme_path current_file = None ->
  process_file readme_path doc_files i current_file w =
  (Returned tt,
   {| realpath := realpath w;
      files := files w;
      stdout := stdout w ++
                (txt "Warning: " ++ current_file ++ txt " not found") ++
                [LF] |}).
Proof.
  intros Hnone. unfold process_file, path_exists, print, stat.
  unfold file_of, target in Hnone.
  unfold mbind, io_bind. cbv beta iota. rewrite Hnone. reflexivity.
Qed.

Lemma process_file_present readme_path doc_files i current_file w data :
  files w !! file_of w readme_path current_file = Some (File data) ->
  process_file readme_path doc_files i current_file w =
  (Returned tt,
   {| realpath := realpath w;
      files :=
        <[file_of w readme_path current_file :=
            File (add_navigation_links (universal_newlines data)
                    (prev_of doc_files i) (next_of doc_files i))]> (files w);
      stdout := stdout w ++ (txt "Updated " ++ current_file) ++ [LF] |}).
Proof.
  intros Hfile.
  unfold process_file, path_exists, read_text, write_text, print, stat.
  unfold file_of, target in *.
  unfold mbind, io_bind. cbv beta iota. rewrite Hfile.
  cbn [negb]. cbv beta iota. rewrite Hfile. cbv beta iota.
  rewrite Hfile. reflexivity.
Qed.

Lemma process_file_directory readme_path doc_files i current_file w :
  files w !! file_of w readme_path current_file = Some Directory ->
  process_file readme_path doc_files i current_file w =
  (Raised (IsADirectoryError (target readme_path current_file)), w).
Proof.
  intros Hdir. unfold process_file, path_exists, read_text, stat.
  unfold file_of, target in *.
  unfold mbind, io_bind. cbv beta iota. rewrite Hdir.
  cbn [negb]. cbv beta iota. rewrite Hdir. reflexivity.
Qed.

Lemma process_file_unreachable readme_path doc_files i current_file w :
  files w !! file_of w readme_path current_file = Some Unreachable ->
  process_file readme_path doc_files i current_file w =
  (Raised (OSError (target readme_path current_file)), w).
Proof.
  intros Hdir. unfold process_file, path_exists, stat.
  unfold file_of, target in *.
  unfold mbind, io_bind. cbv beta iota. rewrite Hdir. reflexivity.
Qed.

(** One turn of the loop on an entry whose path leads to a file or to
    nothing. *)
Lemma process_file_effect readme_path doc_files i f w0 w :
  same_nodes w w0 ->
  file_or_missing (files w0 !! file_of w0 readme_path f) ->
  exists w1,
    process_file readme_path doc_files i f w = (Returned tt, w1) /\
    stdout w1 = stdout w ++ report w0 readme_path f ++ [LF] /\
    same_nodes w1 w0 /\
    (forall p, file_of w0 readme_path f <> p -> files w1 !! p = files w !! p) /\
    (forall data,
        files w !! file_of w0 readme_path f = Some (File data) ->
        files w1 !! file_of w0 readme_path f =
        Some (File (add_navigation_links (universal_newlines data)
                      (prev_of doc_files i) (next_of doc_files i)))).
Proof.
  intros Hsame Hok. pose proof Hsame as [Hnames Hkinds].
  assert (file_of w readme_path f = file_of w0 readme_path f) as Hkey
    by (unfold file_of; rewrite Hnames; reflexivity).
  destruct (Hkinds (file_of w0 readme_path f)) as (Hnone & Hdir & Hunr).
  unfold report.
  destruct (files w !! file_of w0 readme_path f) as [[data| |]|] eqn:E.
  - eexists. split; [apply process_file_present; rewrite Hkey; exact E|].
    rewrite Hkey. cbn [stdout files].
    split; [|split; [|split]].
    + rewrite bool_decide_eq_true_2; [rewrite <- !app_assoc; reflexivity|].
      destruct (files w0 !! file_of w0 readme_path f) eqn:E0; [eauto|].
      pose proof (proj2 Hnone eq_refl). discriminate.
    + eapply same_nodes_trans; [|exact Hsame].
      apply (same_nodes_write w _ data). exact E.
    + intros p Hp. apply lookup_insert_ne. exact Hp.
    + intros data' [= <-]. apply lookup_insert_eq.
  - rewrite (proj1 Hdir eq_refl) in Hok. contradiction.
  - rewrite (proj1 Hunr eq_refl) in Hok. contradiction.
  - eexists. split; [apply process_file_missing; rewrite Hkey; exact E|].
    cbn [stdout files]. split; [|split; [|split]].
    + rewrite bool_decide_eq_false_2; [rewrite <- !app_assoc; reflexivity|].
      rewrite (proj1 Hnone eq_refl). intros [x Hx]. discriminate.
    + eapply same_nodes_trans; [|exact Hsame]. apply same_nodes_print.
    + reflexivity.
    + discriminate.
Qed.

(** The loop, from any place in the list on: what it prints and what it
    does to the files. *)
Lemma loop_effect readme_path doc_files w0 rest k w :
  same_nodes w w0 ->
  (forall f, f ∈ rest -> file_or_missing (files w0 !! file_of w0 readme_path f)) ->
  exists w',
    for_each (fun '(i, current_file) =>
                process_file readme_path doc_files i current_file)
             (imap (fun i x => (k + i, x)) rest) w
    = (Returned tt, w') /\
    stdout w' =
      stdout w ++
      concat (List.map (fun f => report w0 readme_path f ++ [LF]) rest) /\
    same_nodes w' w0 /\
    (forall p, (forall f, f ∈ rest -> file_of w0 readme_path f <> p) ->
       files w' !! p = files w !! p) /\
    (forall i f data,
       rest !! i = Some f ->
       (forall j g, rest !! j = Some g -> j <> i ->
          file_of w0 readme_path g <> file_of w0 readme_path f) ->
       files w !! file_of w0 readme_path f = Some (File data) ->
       files w' !! file_of w0 readme_path f =
       Some (File (add_navigation_links (universal_newlines data)
                     (prev_of doc_files (k + i)) (next_of doc_files (k + i))))).
Proof.
  revert k w. induction rest as [|f rest IH]; intros k w Hsame Hok.
  - exists w. split; [reflexivity|]. split; [cbn; rewrite app_nil_r; reflexivity|].
    split; [exact Hsame|]. split; [reflexivity|].
    intros i f data Hi. inversion Hi.
  - cbn [imap for_each concat List.map].
    assert (forall g, g ∈ rest ->
              file_or_missing (files w0 !! file_of w0 readme_path g)) as Hrest
      by (intros g Hg; apply Hok, elem_of_cons; auto).
    destruct (process_file_effect readme_path doc_files (k + 0) f w0 w Hsame)
      as (w1 & Hstep & Hout1 & Hsame1 & Hframe1 & Hhere1);
      [apply Hok, elem_of_cons; auto|].
    destruct (IH (S k) w1 Hsame1 Hrest)
      as (w' & Hrun & Hout & Hsame' & Hframe & Hcontent).
    exists w'. split; [|split; [|split; [exact Hsame'|split]]].
    + unfold mbind, io_bind at 1. rewrite Hstep, <- Hrun.
      f_equal. apply imap_ext. intros i x _. unfold compose. f_equal. lia.
    + rewrite Hout, Hout1, <- !app_assoc. reflexivity.
    + intros p Hp. rewrite Hframe, Hframe1; [reflexivity| |].
      * apply Hp, elem_of_cons. auto.
      * intros g Hg. apply Hp, elem_of_cons. auto.
    + intros [|i] g data Hi Huniq Hdata.
      * injection Hi as ->. rewrite Hframe; [apply Hhere1, Hdata|].
        intros h [j Hj]%list_elem_of_lookup_1.
        apply (Huniq (S j) h Hj). discriminate.
      * cbn [lookup list_lookup] in Hi.
        replace (k + S i) with (S k + i) by lia.
        apply (Hcontent i g data Hi).
        -- intros j h Hj Hne. apply (Huniq (S j) h Hj). congruence.
        -- rewrite Hframe1; [exact Hdata|].
           apply (Huniq 0 f eq_refl). discriminate.
Qed.

Lemma run_from_readme readme_path w readme :
  files w !! realpath w (path_str readme_path) = Some (File readme) ->
  process_documentation_files readme_path w =
  for_each (fun '(i, current_file) =>
              process_file readme_path
                (extract_doc_links_from_readme (universal_newlines readme))
                i current_file)
           (imap (fun i x => (0 + i, x))
              (extract_doc_links_from_readme (universal_newlines readme))) w.
Proof.
  intros Hreadme. unfold process_documentation_files, read_text, stat.
  unfold mbind, io_bind at 1. rewrite Hreadme. reflexivity.
Qed.
End Orchestrator.

Section Runs.
Context {ucd : UnicodeData}.

(** C4: a referenced file that does not exist makes the loop print
    "Warning: <path> not found" and go on, without raising and without
    touching any file, while a referenced file that exists is rewritten
    with its navigation and reported by "Updated <path>".  A run whose
    README can be read and whose referenced paths each lead to a file or
    to nothing returns normally.  It has then printed one line for every
    entry of the list, in order (the warning for the missing ones), it has
    created and removed no file, every file that exactly one entry names,
    before or after a missing one, holds the injector's result for its
    former content and its neighbours in the list, and every file that no
    entry names is as it was. *)
Theorem missing_files_warned_and_skipped readme_path w readme :
  files w !! realpath w (path_str readme_path) = Some (File readme) ->
  (forall f, f ∈ extract_doc_links_from_readme (universal_newlines readme) ->
     file_or_missing (files w !! file_of w readme_path f)) ->
  (forall doc_files i f w0,
      files w0 !! file_of w0 readme_path f = None ->
      process_file readme_path doc_files i f w0 =
      (Returned tt,
       {| realpath := realpath w0;
          files := files w0;
          stdout := stdout w0 ++
                    (txt "Warning: " ++ f ++ txt " not found") ++ [LF] |})) /\
  (forall doc_files i f w0 data,
      files w0 !! file_of w0 readme_path f = Some (File data) ->
      process_file readme_path doc_files i f w0 =
      (Returned tt,
       {| realpath := realpath w0;
          files :=
            <[file_of w0 readme_path f :=
                File (add_navigation_links (universal_newlines data)
                        (prev_of doc_files i) (next_of doc_files i))]>
              (files w0);
          stdout := stdout w0 ++ (txt "Updated " ++ f) ++ [LF] |})) /\
  exists w',
    process_documentation_files readme_path w = (Returned tt, w') /\
    stdout w' =
      stdout w ++
      concat (List.map (fun f => report w readme_path f ++ [LF])
                (extract_doc_links_from_readme (universal_newlines readme))) /\
    same_nodes w' w /\
    (forall i f data,
        extract_doc_links_from_readme (universal_newlines readme) !! i
          = Some f ->
        (forall j g,
            extract_doc_links_from_readme (universal_newlines readme) !! j
              = Some g ->
            j <> i -> file_of w readme_path g <> file_of w readme_path f) ->
        files w !! file_of w readme_path f = Some (File data) ->
        files w' !! file_of w readme_path f =
        Some (File (add_navigation_links (universal_newlines data)
                      (prev_of (extract_doc_links_from_readme
                                  (universal_newlines readme)) i)
                      (next_of (extract_doc_links_from_readme
                                  (universal_newlines readme)) i)))) /\
    (forall p,
        (forall f,
            f ∈ extract_doc_links_from_readme (universal_newlines readme) ->
            file_of w readme_path f <> p) ->
        files w' !! p = files w !! p).
Proof.
  intros Hreadme Hok. split; [|split].
  - intros doc_files i f w0. apply process_file_missing.
  - intros doc_files i f w0 data. apply process_file_present.
  - destruct (loop_effect readme_path
                (extract_doc_links_from_readme (universal_newlines readme))
                w (extract_doc_links_from_readme (universal_newlines readme))
                0 w (same_nodes_refl w) Hok)
      as (w' & Hrun & Hout & Hsame & Hframe & Hcontent).
    exists w'. rewrite (run_from_readme _ _ _ Hreadme).
    split; [exact Hrun|]. split; [exact Hout|]. split; [exact Hsame|].
    split; [|exact Hframe].
    intros i f data Hi Huniq Hdata. exact (Hcontent i f data Hi Huniq Hdata).
Qed.

(** X9: a run that completes (the README can be read, every referenced
    path leads to a file or to nothing) leaves every file alone that no
    entry of the list names, under whatever text: only referenced files
    are written. *)
Theorem run_leaves_other_files readme_path w readme :
  files w !! realpath w (path_str readme_path) = Some (File readme) ->
  (forall f, f ∈ extract_doc_links_from_readme (universal_newlines readme) ->
     file_or_missing (files w !! file_of w readme_path f)) ->
  exists w',
    process_documentation_files readme_path w = (Returned tt, w') /\
    forall p,
      (forall f,
          f ∈ extract_doc_links_from_readme (universal_newlines readme) ->
          file_of w readme_path f <> p) ->
      files w' !! p = files w !! p.
Proof.
  intros Hreadme Hok.
  destruct (loop_effect readme_path
              (extract_doc_links_from_readme (universal_newlines readme))
              w (extract_doc_links_from_readme (universal_newlines readme))
              0 w (same_nodes_refl w) Hok)
    as (w' & Hrun & _ & _ & Hframe & _).
  exists w'. rewrite (run_from_readme _ _ _ Hreadme). auto.
Qed.

(** X10: in a run that completes, a file that exists and that exactly one
    entry of the list names (no other entry leads to the same file, under
    whatever text) ends up holding the injector's result for what was read
    from it (newlines translated) and the entries before and after it in
    the list, whether or not the files of those neighbours exist. *)
Theorem run_writes_navigation readme_path w readme i f data :
  files w !! realpath w (path_str readme_path) = Some (File readme) ->
  (forall g, g ∈ extract_doc_links_from_readme (universal_newlines readme) ->
     file_or_missing (files w !! file_of w readme_path g)) ->
  extract_doc_links_from_readme (universal_newlines readme) !! i = Some f ->
  (forall j g,
      extract_doc_links_from_readme (universal_newlines readme) !! j = Some g ->
      j <> i -> file_of w readme_path g <> file_of w readme_path f) ->
  files w !! file_of w readme_path f = Some (File data) ->
  exists w',
    process_documentation_files readme_path w = (Returned tt, w') /\
    files w' !! file_of w readme_path f =
    Some (File (add_navigation_links (universal_newlines data)
                  (prev_of (extract_doc_links_from_readme
                              (universal_newlines readme)) i)
                  (next_of (extract_doc_links_from_readme
                              (universal_newlines readme)) i))).
Proof.
  intros Hreadme Hok Hi Huniq Hdata.
  destruct (loop_effect readme_path
              (extract_doc_links_from_readme (universal_newlines readme))
              w (extract_doc_links_from_readme (universal_newlines readme))
              0 w (same_nodes_refl w) Hok)
    as (w' & Hrun & _ & _ & _ & Hcontent).
  exists w'. rewrite (run_from_readme _ _ _ Hreadme).
  split; [exact Hrun|]. exact (Hcontent i f data Hi Huniq Hdata).
Qed.

(** X11: a README that is missing, is a directory or cannot be reached
    makes the run raise before anything is printed or written: the world
    is as it was. *)
Theorem unreadable_readme_raises readme_path w :
  (forall readme,
      files w !! realpath w (path_str readme_path) <> Some (File readme)) ->
  exists e,
    process_documentation_files readme_path w = (Raised e, w) /\
    (files w !! realpath w (path_str readme_path) = None ->
     e = FileNotFoundError (path_str readme_path)) /\
    (files w !! realpath w (path_str readme_path) = Some Directory ->
     e = IsADirectoryError (path_str readme_path)) /\
    (files w !! realpath w (path_str readme_path) = Some Unreachable ->
     e = OSError (path_str readme_path)).
Proof.
  intros Hno. unfold process_documentation_files, read_text, stat.
  unfold mbind, io_bind at 1.
  destruct (files w !! realpath w (path_str readme_path))
    as [[readme| |]|] eqn:E.
  - exfalso. exact (Hno readme eq_refl).
  - eexists. split; [reflexivity|]. repeat split; discriminate || reflexivity.
  - eexists. split; [reflexivity|]. repeat split; discriminate || reflexivity.
  - eexists. split; [reflexivity|]. repeat split; discriminate || reflexivity.
Qed.

(** X12: a README in which the extractor finds no link makes the run a
    no-op: it returns, prints nothing and writes nothing. *)
Theorem readme_without_links_is_noop readme_path w readme :
  files w !! realpath w (path_str readme_path) = Some (File readme) ->
  extract_doc_links_from_readme (universal_newlines readme) = [] ->
  process_documentation_files readme_path w = (Returned tt, w).
Proof.
  intros Hreadme Hnone. rewrite (run_from_readme _ _ _ Hreadme), Hnone.
  reflexivity.
Qed.

(** X13: a referenced path that is a directory stops the run with
    [IsADirectoryError] at its entry.  The entries before it (each leading
    to a file or to nothing) have been processed: they are reported, in
    order, and a file that exactly one of them names holds its navigation;
    nothing is printed for the directory or for a later entry, no file is
    created or removed, and a file that no earlier entry names is as it
    was. *)
Theorem directory_stops_the_run readme_path w readme before f after :
  files w !! realpath w (path_str readme_path) = Some (File readme) ->
  extract_doc_links_from_readme (universal_newlines readme) =
    before ++ f :: after ->
  (forall g, g ∈ before ->
     file_or_missing (files w !! file_of w readme_path g)) ->
  files w !! file_of w readme_path f = Some Directory ->
  exists w',
    process_documentation_files readme_path w =
      (Raised (IsADirectoryError (target readme_path f)), w') /\
    stdout w' =
      stdout w ++
      concat (List.map (fun g => report w readme_path g ++ [LF]) before) /\
    same_nodes w' w /\
    (forall i g data,
        before !! i = Some g ->
        (forall j h, before !! j = Some h -> j <> i ->
           file_of w readme_path h <> file_of w readme_path g) ->
        files w !! file_of w readme_path g = Some (File data) ->
        files w' !! file_of w readme_path g =
        Some (File (add_navigation_links (universal_newlines data)
                      (prev_of (before ++ f :: after) i)
                      (next_of (before ++ f :: after) i)))) /\
    (forall p,
        (forall g, g ∈ before -> file_of w readme_path g <> p) ->
        files w' !! p = files w !! p).
Proof.
  intros Hreadme Hlist Hok Hdir.
  destruct (loop_effect readme_path
              (extract_doc_links_from_readme (universal_newlines readme))
              w before 0 w (same_nodes_refl w) Hok)
    as (w1 & Hrun & Hout & Hsame & Hframe & Hcontent).
  exists w1. split; [|split; [exact Hout|split; [exact Hsame|split]]].
  - rewrite (run_from_readme _ _ _ Hreadme).
    replace (imap (fun i x => (0 + i, x))
               (extract_doc_links_from_readme (universal_newlines readme)))
      with (imap (fun (i : nat) (x : str) => (0 + i, x)) (before ++ f :: after))
      by (rewrite Hlist; reflexivity).
    rewrite imap_app, for_each_app, Hrun.
    cbn [imap for_each]. unfold mbind, io_bind at 1.
    rewrite process_file_directory; [reflexivity|].
    destruct Hsame as [Hnames Hkinds]. unfold file_of in *. rewrite Hnames.
    apply Hkinds. exact Hdir.
  - intros i g data Hi Huniq Hdata. rewrite <- Hlist.
    exact (Hcontent i g data Hi Huniq Hdata).
  - exact Hframe.
Qed.

(** X14: a list of one page whose file exists: the file is written back
    as it was read, that is with "\r\n" and "\r" turned into "\n" and
    without navigation, and "Updated" is printed for it. *)
Theorem single_page_rewritten readme_path w readme f data :
  files w !! realpath w (path_str readme_path) = Some (File readme) ->
  extract_doc_links_from_readme (universal_newlines readme) = [f] ->
  files w !! file_of w readme_path f = Some (File data) ->
  process_documentation_files readme_path w =
  (Returned tt,
   {| realpath := realpath w;
      files := <[file_of w readme_path f := File (universal_newlines data)]>
               (files w);
      stdout := stdout w ++ (txt "Updated " ++ f) ++ [LF] |}).
Proof.
  intros Hreadme Hone Hdata. rewrite (run_from_readme _ _ _ Hreadme), Hone.
  cbn [imap for_each]. unfold mbind, io_bind at 1.
  rewrite (process_file_present _ _ _ _ _ _ Hdata). reflexivity.
Qed.
End Runs.

Ltac entries_of H :=
  repeat (apply elem_of_cons in H as [->|H];
          [vm_compute; try exact I; try discriminate|]);
  inversion H.

Ltac other_entries Hj :=
  let j := fresh "j" in
  match type of Hj with
  | _ !! ?n = _ =>
      destruct n as [|[|[|j]]]; try contradiction; try discriminate Hj;
      injection Hj as <-; vm_compute; discriminate
  end.

(** The run over [example_world]: the missing file is reported between the
    two updates and is not created, and the page behind it is rewritten,
    with a link to the missing page. *)
Lemma missing_file_example :
  exists w',
    main (ucd := basic_latin) example_world = (Returned tt, w') /\
    stdout w' =
      txt "Updated docs/a.md" ++ [LF] ++
      txt "Warning: docs/missing.md not found" ++ [LF] ++
      txt "Updated docs/b.md" ++ [LF] /\
    files w' !! txt "docs/missing.md" = None /\
    files w' !! txt "docs/b.md" =
    Some (File (framed (txt "[" ++ [LARR] ++
                        txt " Previous: Missing](missing.md)")
                       (txt "beta"))).
Proof.
  destruct (missing_files_warned_and_skipped (ucd := basic_latin)
              (Path (txt "README.md")) example_world example_readme)
    as (_ & _ & w' & Hrun & Hout & Hsame & Hcontent & _).
  - vm_compute. reflexivity.
  - intros f Hf.
    change (extract_doc_links_from_readme (universal_newlines example_readme))
      with [txt "docs/a.md"; txt "docs/missing.md"; txt "docs/b.md"] in Hf.
    entries_of Hf.
  - exists w'. split; [exact Hrun|]. split; [|split].
    + rewrite Hout. vm_compute. reflexivity.
    + apply Hsame. vm_compute. reflexivity.
    + change (txt "docs/b.md")
        with (file_of example_world (Path (txt "README.md")) (txt "docs/b.md"))
        at 1.
      rewrite (Hcontent 2 (txt "docs/b.md") (txt "beta")).
      * vm_compute. reflexivity.
      * vm_compute. reflexivity.
      * intros j g Hj Hne.
        change (extract_doc_links_from_readme
                  (universal_newlines example_readme))
          with [txt "docs/a.md"; txt "docs/missing.md"; txt "docs/b.md"] in Hj.
        other_entries Hj.
      * vm_compute. reflexivity.
Defined.

(** In [example_world] the README itself is not touched. *)
Lemma run_leaves_other_files_example :
  exists w',
    main (ucd := basic_latin) example_world = (Returned tt, w') /\
    files w' !! txt "README.md" = Some (File example_readme).
Proof.
  destruct (run_leaves_other_files (ucd := basic_latin)
              (Path (txt "README.md")) example_world example_readme)
    as (w' & Hrun & Hframe).
  - vm_compute. reflexivity.
  - intros f Hf.
    change (extract_doc_links_from_readme (universal_newlines example_readme))
      with [txt "docs/a.md"; txt "docs/missing.md"; txt "docs/b.md"] in Hf.
    entries_of Hf.
  - exists w'. split; [exact Hrun|].
    rewrite Hframe; [vm_compute; reflexivity|].
    intros f Hf.
    change (extract_doc_links_from_readme (universal_newlines example_readme))
      with [txt "docs/a.md"; txt "docs/missing.md"; txt "docs/b.md"] in Hf.
    entries_of Hf.
Defined.

(** In [example_world] the first page gets a link to the second one, whose
    file is missing. *)
Lemma run_writes_navigation_example :
  exists w',
    main (ucd := basic_latin) example_world = (Returned tt, w') /\
    files w' !! txt "docs/a.md" =
    Some (File (framed (txt "[Next: Missing " ++ [RARR] ++ txt "](missing.md)")
                       (txt "alpha"))).
Proof.
  destruct (run_writes_navigation (ucd := basic_latin)
              (Path (txt "README.md")) example_world example_readme
              0 (txt "docs/a.md") (txt "alpha"))
    as (w' & Hrun & Hfile).
  - vm_compute. reflexivity.
  - intros f Hf.
    change (extract_doc_links_from_readme (universal_newlines example_readme))
      with [txt "docs/a.md"; txt "docs/missing.md"; txt "docs/b.md"] in Hf.
    entries_of Hf.
  - vm_compute. reflexivity.
  - intros j g Hj Hne.
    change (extract_doc_links_from_readme (universal_newlines example_readme))
      with [txt "docs/a.md"; txt "docs/missing.md"; txt "docs/b.md"] in Hj.
    other_entries Hj.
  - vm_compute. reflexivity.
  - exists w'. split; [exact Hrun|].
    change (txt "docs/a.md")
      with (file_of example_world (Path (txt "README.md")) (txt "docs/a.md"))
      at 1.
    rewrite Hfile. vm_compute. reflexivity.
Defined.

(** Two links that lead to one file: the file is rewritten at both, the
    second time with the result of the first as its content. *)
Lemma two_names_for_one_file :
  let run :=
    main (ucd := basic_latin) example_alias_world in
  fst run = Returned tt /\
  stdout (snd run) =
    txt "Updated docs/a.md" ++ [LF] ++
    txt "Updated docs/../docs/a.md" ++ [LF] /\
  files (snd run) !! txt "docs/a.md" =
  Some (File (add_navigation_links (ucd := basic_latin)
                (add_navigation_links (ucd := basic_latin) (txt "alpha")
                   None (Some (txt "docs/../docs/a.md")))
                (Some (txt "docs/a.md")) None)).
Proof. vm_compute. repeat split. Qed.

(** Without a README.md the script fails at once. *)
Lemma unreadable_readme_raises_example :
  exists e,
    main (ucd := basic_latin) example_blank_world =
      (Raised e, example_blank_world) /\
    e = FileNotFoundError (txt "README.md").
Proof.
  destruct (unreadable_readme_raises (ucd := basic_latin)
              (Path (txt "README.md")) example_blank_world)
    as (e & Hrun & Hmissing & _).
  - intros readme. vm_compute. discriminate.
  - exists e. split; [exact Hrun|]. apply Hmissing. vm_compute. reflexivity.
Defined.

(** A README without links. *)
Lemma readme_without_links_is_noop_example :
  main (ucd := basic_latin) example_plain_world =
  (Returned tt, example_plain_world).
Proof.
  apply (readme_without_links_is_noop (ucd := basic_latin)
           (Path (txt "README.md")) example_plain_world (txt "No links here."));
    vm_compute; reflexivity.
Defined.

(** The second of three links leads to a directory: the first page is
    written and reported, then the run stops. *)
Lemma directory_stops_the_run_example :
  exists w',
    main (ucd := basic_latin) example_directory_world =
      (Raised (IsADirectoryError (txt "docs/d.md")), w') /\
    stdout w' = txt "Updated docs/a.md" ++ [LF] /\
    files w' !! txt "docs/a.md" =
    Some (File (framed (txt "[Next: D " ++ [RARR] ++ txt "](d.md)")
                       (txt "alpha"))) /\
    files w' !! txt "docs/b.md" = Some (File (txt "beta")).
Proof.
  destruct (directory_stops_the_run (ucd := basic_latin)
              (Path (txt "README.md")) example_directory_world
              (txt "[A](docs/a.md) [D](docs/d.md) [B](docs/b.md)")
              [txt "docs/a.md"] (txt "docs/d.md") [txt "docs/b.md"])
    as (w' & Hrun & Hout & _ & Hcontent & Hframe).
  - vm_compute. reflexivity.
  - vm_compute. reflexivity.
  - intros g Hg. entries_of Hg.
  - vm_compute. reflexivity.
  - exists w'. split; [exact Hrun|]. split; [|split].
    + rewrite Hout. vm_compute. reflexivity.
    + change (txt "docs/a.md")
        with (file_of example_directory_world (Path (txt "README.md"))
                (txt "docs/a.md")) at 1.
      rewrite (Hcontent 0 (txt "docs/a.md") (txt "alpha")).
      * vm_compute. reflexivity.
      * reflexivity.
      * intros j h Hj Hne. destruct j as [|j]; [contradiction|discriminate].
      * vm_compute. reflexivity.
    + rewrite Hframe; [vm_compute; reflexivity|].
      intros g Hg. entries_of Hg.
Defined.

(** A single page with a Windows line end. *)
Lemma single_page_rewritten_example :
  main (ucd := basic_latin) example_single_world =
  (Returned tt,
   {| realpath := plain_names;
      files := <[txt "docs/a.md" := File (txt "x" ++ [LF] ++ txt "y")]>
               (files example_single_world);
      stdout := txt "Updated docs/a.md" ++ [LF] |}).
Proof.
  apply (single_page_rewritten (ucd := basic_latin)
           (Path (txt "README.md")) example_single_world
           (txt "[A](docs/a.md)") (txt "docs/a.md")
           (txt "x" ++ [13%N; LF] ++ txt "y"));
    vm_compute; reflexivity.
Defined.

(** * A page whose last newline is gone *)

Section TrimmedPage.
Context {ucd : UnicodeData}.

Lemma add_next_b content :
  add_navigation_links content None (Some (txt "docs/b.md")) =
  framed (txt "[Next: B " ++ [RARR] ++ txt "](b.md)")
         (strip (without_nav_lines content)).
Proof.
  assert (nav_name (txt "docs/b.md") = txt "B") as Hb.
  { unfold nav_name.
    change (replace UNDERSCORE SPACE (stem (Path (txt "docs/b.md"))))
      with (txt "b").
    rewrite title_ascii by reflexivity. reflexivity. }
  etransitivity; [apply add_navigation_links_framed; discriminate|].
  change (navigation None (Some (txt "docs/b.md")))
    with [next_entry (txt "docs/b.md")].
  unfold next_entry. rewrite Hb. reflexivity.
Qed.

(** C1: the injector is not idempotent, and it duplicates navigation, on
    its own page once the newlines at the end of the file are gone.  The
    pattern for an old navigation line asks for a newline behind the line,
    so the bottom line of such a page is not recognised: the first run
    keeps it in the body and writes a second one below it, and only the
    second run, which finds the newline that the first one put behind the
    line, deletes it. *)
Theorem injector_duplicates_trimmed_navigation :
  let nav_text := txt "[Next: B " ++ [RARR] ++ txt "](b.md)" in
  let next := Some (txt "docs/b.md") in
  let page := add_navigation_links (txt "hello") None next in
  let trimmed := rstrip page in
  let once := add_navigation_links trimmed None next in
  let twice := add_navigation_links once None next in
  page = framed nav_text (txt "hello") /\
  trimmed =
    [LF] ++ nav_text ++ [LF; LF] ++ txt "hello" ++ [LF; LF] ++ nav_text /\
  once = framed nav_text (txt "hello" ++ [LF; LF] ++ nav_text) /\
  twice = framed nav_text (txt "hello") /\
  twice <> once.
Proof.
  intros nav_text next page trimmed once twice.
  assert (page = framed nav_text (txt "hello")) as Hpage
    by (unfold page, next; rewrite add_next_b; reflexivity).
  assert (trimmed =
    [LF] ++ nav_text ++ [LF; LF] ++ txt "hello" ++ [LF; LF] ++ nav_text)
    as Htrimmed by (unfold trimmed; rewrite Hpage; reflexivity).
  assert (once = framed nav_text (txt "hello" ++ [LF; LF] ++ nav_text))
    as Honce
    by (unfold once, next; rewrite add_next_b, Htrimmed; reflexivity).
  assert (twice = framed nav_text (txt "hello")) as Htwice
    by (unfold twice, next; rewrite add_next_b, Honce; reflexivity).
  repeat split; try assumption.
  rewrite Htwice, Honce. vm_compute. discriminate.
Qed.
End TrimmedPage.
